(** * Hierarchical config merging: a shallow embedding of [config_merger.py]

    The development follows the Python module function by function:
    [find_yaml_files_in_hierarchy], [parse_yaml_configs],
    [merge_configs_by_depth], [_deep_merge] and
    [merge_hierarchical_configs].  Python dictionaries are kept as
    association lists in insertion order (the order in which
    [dict.items()] iterates), exceptions as the left summand of a sum
    type, and the two scratch containers of the collision detector as
    a [gset] and a [gmap].  The file system and the YAML loader are
    parameters, gathered in a [world].  [_deep_merge] is given a second
    time over a store of objects, to follow what it does to the objects
    that its arguments refer to, and a call of it is also given with the
    number of nested calls that the interpreter's recursion limit
    leaves. *)

From Stdlib Require Import String Ascii ZArith DecimalString SpecFloat.
From stdpp Require Import base option list sorting gmap strings.

Local Open Scope string_scope.
Local Open Scope list_scope.
Local Open Scope nat_scope.

(** ** Exceptions *)

(** The exception classes the module can raise, each with its message. *)
Inductive exn : Type :=
| ValueError (msg : string)
| AttributeError (msg : string)
| KeyError (msg : string)
| TypeError (msg : string)
| RecursionError (msg : string)
| Exception (msg : string).

(** A computation either raises or returns. *)
Definition result (A : Type) : Type := exn + A.

Definition ret {A} (a : A) : result A := inr a.
Definition raise {A} (e : exn) : result A := inl e.
Definition bind {A B} (m : result A) (k : A → result B) : result B :=
  match m with
  | inl e => inl e
  | inr a => k a
  end.

Notation "'let*' x ':=' m 'in' k" := (bind m (λ x, k))
  (at level 10, x pattern, m at level 100, k at level 200).

(** ** Structured values *)

(** What [yaml.safe_load] hands back: scalars, sequences and mappings. *)
Inductive scalar : Type :=
| SNone
| SBool (b : bool)
| SInt (n : Z)
| SFloat (f : spec_float)
| SStr (s : string).

Unset Elimination Schemes.
Inductive value : Type :=
| VScalar (s : scalar)
| VList (items : list value)
| VDict (entries : list (string * value)).
Set Elimination Schemes.

(** A Python [dict] with string keys, in insertion order. *)
Abbreviation dict := (list (string * value)).

Definition isinstance_dict (v : value) : bool :=
  match v with VDict _ => true | _ => false end.

(** [d.get(key)]: the entry stored under [key], if any. *)
Fixpoint dict_get {V} (key : string) (d : list (string * V)) : option V :=
  match d with
  | [] => None
  | (k, v) :: d' => if String.eqb k key then Some v else dict_get key d'
  end.

(** [key in d]. *)
Definition dict_mem {V} (key : string) (d : list (string * V)) : bool :=
  match dict_get key d with Some _ => true | None => false end.

(** [d[key] = v]: an existing key keeps its position, a new key goes last. *)
Fixpoint dict_set {V} (key : string) (v : V) (d : list (string * V))
  : list (string * V) :=
  match d with
  | [] => [(key, v)]
  | (k, w) :: d' =>
      if String.eqb k key then (k, v) :: d' else (k, w) :: dict_set key v d'
  end.

Definition dict_keys {V} (d : list (string * V)) : list string := map fst d.

(** ** [_deep_merge] *)

(** [deep_merge_value base (VDict override)] is [_deep_merge(base, override)];
    the recursion is structural in the override. *)
Fixpoint deep_merge_value (base : dict) (override : value) {struct override}
  : dict :=
  match override with
  | VDict entries =>
      (fix loop (result : dict) (items : dict) {struct items} : dict :=
         match items with
         | [] => result
         | (key, value) :: rest =>
             loop (match dict_get key result, value with
                   | Some (VDict sub), VDict _ =>
                       dict_set key (VDict (deep_merge_value sub value)) result
                   | _, _ => dict_set key value result
                   end) rest
         end) base entries
  | _ => base
  end.

Definition _deep_merge (base override : dict) : dict :=
  deep_merge_value base (VDict override).

Arguments _deep_merge : simpl never.

(** One iteration of the loop of [_deep_merge]. *)
Definition merge_step (result : dict) (kv : string * value) : dict :=
  match dict_get kv.1 result, kv.2 with
  | Some (VDict sub), VDict o => dict_set kv.1 (VDict (_deep_merge sub o)) result
  | _, _ => dict_set kv.1 kv.2 result
  end.

(** ** Paths *)

(** A POSIX [pathlib.Path]: whether it has the root ["/"], and its
    components after the root. *)
Record Path : Type := mkPath { is_absolute : bool; names : list string }.

Global Instance Path_eq_dec : EqDecision Path.
Proof. solve_decision. Defined.

(** [p.parts]: the root counts as a part. *)
Definition parts (p : Path) : list string :=
  (if is_absolute p then ["/"] else []) ++ names p.

(** [str(p)]. *)
Definition path_str (p : Path) : string :=
  if is_absolute p then "/" +:+ String.concat "/" (names p)
  else match names p with
       | [] => "."
       | _ => String.concat "/" (names p)
       end.

(** [p / name] for a single component. *)
Definition path_child (p : Path) (name : string) : Path :=
  mkPath (is_absolute p) (names p ++ [name]).

(** [s.split(sep)]. *)
Fixpoint split_on (sep : ascii) (s : string) : list string :=
  match s with
  | EmptyString => [EmptyString]
  | String c s' =>
      if Ascii.eqb c sep then EmptyString :: split_on sep s'
      else match split_on sep s' with
           | [] => [String c EmptyString]
           | w :: ws => String c w :: ws
           end
  end.

(** [Path(s)]: empty and ["."] components are dropped. *)
Definition Path_of_string (s : string) : Path :=
  mkPath (String.prefix "/" s)
         (filter (λ c, c ≠ "" ∧ c ≠ ".") (split_on "/"%char s)).

(** [s.startswith(p)] and [s.endswith(p)]. *)
Definition startswith (s p : string) : bool := String.prefix p s.

Definition endswith (s p : string) : bool :=
  (String.length p <=? String.length s)%nat
  && String.eqb (substring (String.length s - String.length p)
                           (String.length p) s) p.

(** [self.relative_to(other)]: the components of [self] below [other];
    [ValueError] when [other] is not an ancestor of, or equal to, [self].
    The message is pathlib's (as of Python 3.12; earlier versions add a
    remark on relative and absolute paths to it). *)
Definition relative_to (self other : Path) : result Path :=
  if bool_decide (is_absolute self = is_absolute other
                  ∧ take (length (names other)) (names self) = names other)
  then ret (mkPath false (drop (length (names other)) (names self)))
  else raise (ValueError ("'" +:+ path_str self +:+ "' is not in the subpath of '"
                          +:+ path_str other +:+ "'")).

(** ** The file system *)

(** A directory as [os.walk] sees it: the sub-directories it descends
    into, and the names of the other entries. *)
Unset Elimination Schemes.
Inductive dir : Type :=
| Dir (subdirs : list (string * dir)) (files : list string).
Set Elimination Schemes.

Definition subdirs (d : dir) : list (string * dir) :=
  match d with Dir s _ => s end.
Definition files (d : dir) : list string :=
  match d with Dir _ f => f end.

(** What the code reads from its environment: the components of the
    absolute path that [Path.resolve] gives for a path, the tree below a
    resolved directory ([None]: not a directory, [os.walk] then yields
    nothing), and what [open] followed by [yaml.safe_load] gives for a
    file name (the text of the exception raised, or the document). *)
Record world : Type := mkWorld {
  resolve_names : Path → list string;
  tree_at : Path → option dir;
  load : string → string + value
}.

(** [p.resolve()]: always an absolute path. *)
Definition resolve (w : world) (p : Path) : Path :=
  mkPath true (resolve_names w p).

(** [os.walk(top)], top-down: a directory, then each sub-directory in
    turn.  The roots are given as paths: [Path(root)] of the string that
    [os.walk] yields for [top / name] is that path. *)
Fixpoint os_walk (root : Path) (d : dir) {struct d}
  : list (Path * list string * list string) :=
  match d with
  | Dir subs fs =>
      (root, map fst subs, fs)
      :: (fix each (l : list (string * dir)) :=
            match l with
            | [] => []
            | (name, sub) :: l' => os_walk (path_child root name) sub ++ each l'
            end) subs
  end.

Definition os_walk_top (w : world) (top : Path)
  : list (Path * list string * list string) :=
  match tree_at w top with
  | Some d => os_walk top d
  | None => []
  end.

(** ** [find_yaml_files_in_hierarchy] *)

Definition is_yaml_name (file : string) : bool :=
  endswith file ".yaml" || endswith file ".yml".

(** The test on [root_parts] in the body of the walk. *)
Definition in_hierarchy (root_parts target_parts : list string) : bool :=
  (length root_parts =? 0)%nat
  || ((length root_parts <=? length target_parts)%nat
      && bool_decide (root_parts = take (length root_parts) target_parts)).

(** One iteration of [for root, dirs, files in os.walk(base_dir)]. *)
Definition visit (base_dir : Path) (target_parts : list string)
    (yaml_files : list Path) (entry : Path * list string * list string)
  : result (list Path) :=
  let '(root_path, _, fs) := entry in
  let* root_relative := relative_to root_path base_dir in
  let root_parts := names root_relative in
  if in_hierarchy root_parts target_parts
  then ret (yaml_files ++ map (path_child root_path) (filter is_yaml_name fs))
  else ret yaml_files.

(** A [for] loop whose body may raise. *)
Fixpoint for_each {S A} (body : S → A → result S) (st : S) (l : list A)
  : result S :=
  match l with
  | [] => ret st
  | a :: l' => let* st' := body st a in for_each body st' l'
  end.

Definition find_yaml_files_in_hierarchy (w : world)
    (base_dir target_path : Path) : result (list Path) :=
  let base_dir := resolve w base_dir in
  let target_path := resolve w target_path in
  if negb (startswith (path_str target_path) (path_str base_dir))
  then raise (ValueError ("Target path " +:+ path_str target_path
                          +:+ " is not within base directory "
                          +:+ path_str base_dir))
  else
    let* target_relative := relative_to target_path base_dir in
    let target_parts := names target_relative in
    for_each (visit base_dir target_parts) [] (os_walk_top w base_dir).

(** ** [parse_yaml_configs] *)

(** Python truth value, as used by [x or {}]. *)
Definition truthy (v : value) : bool :=
  match v with
  | VScalar SNone => false
  | VScalar (SBool b) => b
  | VScalar (SInt n) => negb (n =? 0)%Z
  | VScalar (SFloat f) => match f with S754_zero _ => false | _ => true end
  | VScalar (SStr s) => negb (String.eqb s "")
  | VList items => match items with [] => false | _ => true end
  | VDict entries => match entries with [] => false | _ => true end
  end.

(** [x or {}]. *)
Definition or_empty_dict (v : value) : value :=
  if truthy v then v else VDict [].

(** One iteration of [for yaml_file in yaml_files]. *)
Definition parse_one (w : world) (configs : dict) (yaml_file : Path)
  : result dict :=
  match load w (path_str yaml_file) with
  | inr doc => ret (dict_set (path_str yaml_file) (or_empty_dict doc) configs)
  | inl e =>
      raise (Exception ("Failed to parse " +:+ path_str yaml_file +:+ ": " +:+ e))
  end.

Definition parse_yaml_configs (w : world) (yaml_files : list Path)
  : result dict :=
  for_each (parse_one w) [] yaml_files.

(** ** [merge_configs_by_depth] *)

(** [len(Path(file_path).parts)]. *)
Definition path_depth (file_path : string) : nat :=
  length (parts (Path_of_string file_path)).

(** [depth_groups[depth].append(item)] on a [defaultdict(list)]. *)
Fixpoint groups_append {A} (depth : nat) (item : A)
    (groups : list (nat * list A)) : list (nat * list A) :=
  match groups with
  | [] => [(depth, [item])]
  | (d, l) :: groups' =>
      if (d =? depth)%nat then (d, l ++ [item]) :: groups'
      else (d, l) :: groups_append depth item groups'
  end.

(** [depth_groups[depth]]; a missing key of a [defaultdict(list)] reads []. *)
Fixpoint groups_get {A} (depth : nat) (groups : list (nat * list A)) : list A :=
  match groups with
  | [] => []
  | (d, l) :: groups' => if (d =? depth)%nat then l else groups_get depth groups'
  end.

(** The first loop: bucket every file under its depth. *)
Definition group_by_depth (configs : dict) : list (nat * list (string * value)) :=
  foldl (λ groups fc, groups_append (path_depth fc.1) fc groups) [] configs.

(** [sorted] on integers. *)
Fixpoint insert_sorted (n : nat) (l : list nat) : list nat :=
  match l with
  | [] => [n]
  | m :: l' => if (n <=? m)%nat then n :: m :: l' else m :: insert_sorted n l'
  end.

Definition sorted (l : list nat) : list nat := foldr insert_sorted [] l.

(** The decimal text of an integer in an f-string. *)
Definition str_of_nat (n : nat) : string :=
  NilZero.string_of_uint (Nat.to_uint n).

(** A same-depth collision, and the diagnostic text reporting it. *)
Record collision : Type := mkCollision {
  c_depth : nat;
  c_key : string;
  c_existing_source : string;
  c_file_path : string
}.

Definition collision_message (c : collision) : string :=
  "Key collision at depth " +:+ str_of_nat (c_depth c) +:+ ": '"
  +:+ c_key c +:+ "' found in both " +:+ c_existing_source c
  +:+ " and " +:+ c_file_path c.

(** [type(v).__name__]. *)
Definition type_name (v : value) : string :=
  match v with
  | VScalar SNone => "NoneType"
  | VScalar (SBool _) => "bool"
  | VScalar (SInt _) => "int"
  | VScalar (SFloat _) => "float"
  | VScalar (SStr _) => "str"
  | VList _ => "list"
  | VDict _ => "dict"
  end.

Definition no_attribute (v : value) (attr : string) : exn :=
  AttributeError ("'" +:+ type_name v +:+ "' object has no attribute '"
                  +:+ attr +:+ "'").

(** [config.keys()] and [override.items()] exist on mappings only. *)
Definition keys_of (config : value) : result (list string) :=
  match config with
  | VDict entries => ret (dict_keys entries)
  | _ => raise (no_attribute config "keys")
  end.

Definition items_of (config : value) : result dict :=
  match config with
  | VDict entries => ret entries
  | _ => raise (no_attribute config "items")
  end.

(** [_deep_merge(base, override)] on two mappings as the interpreter
    runs it, with [frames] calls of the function left before the
    recursion limit is reached: every call takes one, the nested call of
    line 163 goes on with one less, and a call for which none is left
    raises [RecursionError] (whose text goes on, in some versions, with
    the place at which the interpreter noticed). *)
Fixpoint deep_merge_limited (frames : nat) (base override : dict)
  : result dict :=
  match frames with
  | 0 => raise (RecursionError "maximum recursion depth exceeded")
  | S frames' =>
      for_each
        (λ (result : dict) (item : string * value),
           match dict_get item.1 result, item.2 with
           | Some (VDict sub), VDict o =>
               let* merged := deep_merge_limited frames' sub o in
               ret (dict_set item.1 (VDict merged) result)
           | _, _ => ret (dict_set item.1 item.2 result)
           end)
        base override
  end.

(** [_deep_merge(base, override)] as Python runs it on any two values,
    whatever the annotations say, with [frames] calls left: [base.copy()]
    exists on mappings and sequences only, [override.items()] on
    mappings only, and a sequence takes no string index. *)
Definition deep_merge_call (frames : nat) (base override : value)
  : result value :=
  match frames with
  | 0 => raise (RecursionError "maximum recursion depth exceeded")
  | S _ =>
      match base with
      | VDict entries =>
          let* items := items_of override in
          let* merged := deep_merge_limited frames entries items in
          ret (VDict merged)
      | VList elements =>
          let* items := items_of override in
          match items with
          | [] => ret (VList elements)
          | _ :: _ =>
              raise (TypeError "list indices must be integers or slices, not str")
          end
      | VScalar _ => raise (no_attribute base "copy")
      end
  end.

(** The state of the collision check of one depth group:
    [all_keys_at_depth], [key_sources] and the shared [errors] list. *)
Record detector : Type := mkDetector {
  all_keys_at_depth : gset string;
  key_sources : gmap string string;
  errors : list string
}.

(** The body of [for key in config.keys()]. *)
Definition check_key (depth : nat) (file_path : string)
    (st : detector) (key : string) : result detector :=
  if bool_decide (key ∈ all_keys_at_depth st) then
    match key_sources st !! key with
    | Some existing_source =>
        ret (mkDetector (all_keys_at_depth st) (key_sources st)
               (errors st ++ [collision_message
                                (mkCollision depth key existing_source file_path)]))
    | None => raise (KeyError key)
    end
  else
    ret (mkDetector ({[key]} ∪ all_keys_at_depth st)
           (<[key := file_path]> (key_sources st)) (errors st)).

(** The body of the first [for file_path, config in depth_configs]. *)
Definition check_file (depth : nat) (st : detector)
    (fc : string * value) : result detector :=
  let* keys := keys_of fc.2 in
  for_each (check_key depth fc.1) st keys.

(** The body of the second [for file_path, config in depth_configs]. *)
Definition merge_file (merged_config : dict) (fc : string * value)
  : result dict :=
  let* override := items_of fc.2 in
  ret (_deep_merge merged_config override).

(** The body of [for depth in sorted(depth_groups.keys())]. *)
Definition process_depth (depth_groups : list (nat * list (string * value)))
    (st : dict * list string) (depth : nat) : result (dict * list string) :=
  let depth_configs := groups_get depth depth_groups in
  let* det := for_each (check_file depth) (mkDetector ∅ ∅ st.2) depth_configs in
  let* merged_config := for_each merge_file st.1 depth_configs in
  ret (merged_config, errors det).

Definition merge_configs_by_depth (configs : dict)
  : result (dict * list string) :=
  match configs with
  | [] => ret ([], [])
  | _ =>
      let depth_groups := group_by_depth configs in
      for_each (process_depth depth_groups) ([], [])
               (sorted (map fst depth_groups))
  end.

(** ** [merge_hierarchical_configs] *)

Definition merge_hierarchical_configs (w : world)
    (base_dir target_path : Path) : result (dict * list string) :=
  let* yaml_files := find_yaml_files_in_hierarchy w base_dir target_path in
  match yaml_files with
  | [] =>
      ret ([], ["No YAML files found in hierarchy from " +:+ path_str base_dir
                +:+ " to " +:+ path_str target_path])
  | _ =>
      let* configs := parse_yaml_configs w yaml_files in
      merge_configs_by_depth configs
  end.

(** ** [_deep_merge] on a heap of objects *)

(** Python passes references.  To see what [_deep_merge] does to the
    objects it is given, the same function is written over a store: a
    list of objects, addressed by position, in which mappings and
    sequences hold addresses.  [base.copy()] allocates a new mapping
    with the same addresses as entries, and [result[key] = ...] writes
    to that new mapping in place. *)
Abbreviation loc := nat.

Inductive obj : Type :=
| OScalar (s : scalar)
| OList (items : list loc)
| ODict (entries : list (string * loc)).

Abbreviation heap := (list obj).

(** [isinstance(x, dict)] for the object at an address. *)
Definition is_dict_at (h : heap) (l : loc) : bool :=
  match h !! l with
  | Some (ODict _) => true
  | _ => false
  end.

(** The loop [for key, value in override.items()] over the entries
    [items] of the override, writing to the mapping at [result]; [rec]
    is the recursive call.  The entries are those the override had when
    the loop began: the loop never writes to the override (see
    [deep_merge_heap_preserved]), so they are the ones the iteration
    meets.  [None] stands for a store in which [result] is not a
    mapping, and for a recursive call that gives no result. *)
Fixpoint merge_items (rec : heap → loc → loc → option (heap * loc))
    (result : loc) (h : heap) (items : list (string * loc)) : option heap :=
  match items with
  | [] => Some h
  | (key, value) :: rest =>
      match h !! result with
      | Some (ODict entries) =>
          match dict_get key entries with
          | Some sub =>
              if is_dict_at h sub && is_dict_at h value then
                match rec h sub value with
                | Some (h1, merged) =>
                    match h1 !! result with
                    | Some (ODict entries1) =>
                        merge_items rec result
                          (<[result := ODict (dict_set key merged entries1)]> h1)
                          rest
                    | _ => None
                    end
                | None => None
                end
              else
                merge_items rec result
                  (<[result := ODict (dict_set key value entries)]> h) rest
          | None =>
              merge_items rec result
                (<[result := ODict (dict_set key value entries)]> h) rest
          end
      | _ => None
      end
  end.

(** [_deep_merge(base, override)] on addresses.  The store may hold
    cycles, so the recursion is bounded by [fuel]; [None] stands for
    fuel that ran out and for arguments that are not mappings (which the
    signature and the [isinstance] tests exclude). *)
Fixpoint deep_merge_heap (fuel : nat) (h : heap) (base override : loc)
  : option (heap * loc) :=
  match fuel with
  | 0 => None
  | S fuel' =>
      match h !! base, h !! override with
      | Some (ODict base_entries), Some (ODict items) =>
          let result := length h in
          match merge_items (deep_merge_heap fuel') result
                  (h ++ [ODict base_entries]) items with
          | Some h' => Some (h', result)
          | None => None
          end
      | _, _ => None
      end
  end.

(** A view of a store: the objects one may look at. *)
Definition view : Type := loc → option obj.

Definition view_of (h : heap) : view := λ l, h !! l.

Definition view_le (σ τ : view) : Prop := ∀ l o, σ l = Some o → τ l = Some o.

(** [denotes σ l v]: in the view [σ], the object at [l] is the value [v]. *)
Unset Elimination Schemes.
Inductive denotes (σ : view) : loc → value → Prop :=
| denotes_scalar l s :
    σ l = Some (OScalar s) → denotes σ l (VScalar s)
| denotes_list l ls vs :
    σ l = Some (OList ls) →
    Forall2 (denotes σ) ls vs →
    denotes σ l (VList vs)
| denotes_dict l es kvs :
    σ l = Some (ODict es) →
    Forall2 (λ e kv, e.1 = kv.1 ∧ denotes σ e.2 kv.2) es kvs →
    denotes σ l (VDict kvs).
Set Elimination Schemes.

(** The nesting depth of a value: enough fuel for merging it in. *)
Fixpoint height (v : value) : nat :=
  match v with
  | VScalar _ => 0
  | VList items => S (foldr (λ x n, height x `max` n) 0 items)
  | VDict entries => S (foldr (λ kv n, height kv.2 `max` n) 0 entries)
  end.

(** Nothing that was in [h] is changed in [h']. *)
Definition preserved (h h' : heap) : Prop :=
  ∀ l o, h !! l = Some o → h' !! l = Some o.

(** The view of a call's result: what the caller relied on, [σ], for
    the addresses that existed, and everything allocated since. *)
Definition grown (σ : view) (h h' : heap) : view :=
  λ l, if decide (l < length h) then σ l else h' !! l.

(** The view inside a call's loop: as [grown], without the mapping
    under construction. *)
Definition around (result : loc) (σ : view) (h h' : heap) : view :=
  λ l, if decide (l = result) then None else grown σ h h' l.

(** What a call with the override [v] achieves on a store: it returns a
    new address, changes nothing that existed, and the new object is
    the merge of the values that the two arguments had, seen without
    reference to anything the caller did not rely on. *)
Definition merges_in (v : value) : Prop :=
  ∀ B, v = VDict B →
  ∀ fuel (h : heap) (σ : view) (base override : loc) (A : dict),
    height v ≤ fuel →
    view_le σ (view_of h) →
    denotes σ base (VDict A) →
    denotes σ override (VDict B) →
    ∃ h', deep_merge_heap fuel h base override = Some (h', length h)
          ∧ preserved h h'
          ∧ denotes (grown σ h h') (length h) (VDict (_deep_merge A B)).

(** ** Notions used to state the properties *)

(** A value is well formed when every mapping in it has pairwise
    distinct keys, as every Python [dict] has. *)
Fixpoint wf_value (v : value) : bool :=
  match v with
  | VScalar _ => true
  | VList items => forallb wf_value items
  | VDict entries =>
      bool_decide (NoDup (map fst entries))
      && forallb (λ kv, wf_value kv.2) entries
  end.

Definition wf_dict (d : dict) : bool := wf_value (VDict d).

(** The value found by following a path of keys through nested mappings. *)
Fixpoint get_path (p : list string) (v : value) : option value :=
  match p with
  | [] => Some v
  | key :: p' =>
      match v with
      | VDict entries =>
          match dict_get key entries with
          | Some v' => get_path p' v'
          | None => None
          end
      | _ => None
      end
  end.

(** What the merge puts where the override holds [vb] and the base
    holds [oa] (or nothing). *)
Definition merged_value (oa : option value) (vb : value) : value :=
  match oa, vb with
  | Some (VDict a), VDict b => VDict (_deep_merge a b)
  | _, _ => vb
  end.

(** [subdir_at d rel d']: following the names [rel] downwards from the
    directory [d] leads to the directory [d']. *)
Inductive subdir_at : dir → list string → dir → Prop :=
| subdir_here d : subdir_at d [] d
| subdir_below d name sub rel d' :
    (name, sub) ∈ subdirs d → subdir_at sub rel d' →
    subdir_at d (name :: rel) d'.

(** The path [rel] below [base]. *)
Definition path_below (base : Path) (rel : list string) : Path :=
  mkPath (is_absolute base) (names base ++ rel).

(** What one directory of the walk contributes to the result. *)
Definition yaml_in (base_dir : Path) (target_parts : list string)
    (entry : Path * list string * list string) : list Path :=
  if in_hierarchy (drop (length (names base_dir)) (names entry.1.1)) target_parts
  then map (path_child entry.1.1) (filter is_yaml_name entry.2)
  else [].

(** The entries of a mapping; nothing for any other value. *)
Definition entries_of (config : value) : dict :=
  match config with
  | VDict entries => entries
  | _ => []
  end.

(** Folding one file into the running result. *)
Definition merge_config (merged_config : dict) (fc : string * value) : dict :=
  _deep_merge merged_config (entries_of fc.2).

(** The (file, key) pairs of a depth group, in the order the collision
    check meets them. *)
Definition file_keys (depth_configs : list (string * value))
  : list (string * string) :=
  depth_configs ≫= λ fc, map (λ key, (fc.1, key)) (dict_keys (entries_of fc.2)).

(** The collision check on structured diagnostics: the source recorded
    for each key, and the collisions found so far. *)
Definition scan_step (depth : nat)
    (st : gmap string string * list collision) (it : string * string)
  : gmap string string * list collision :=
  match st.1 !! it.2 with
  | Some existing_source =>
      (st.1, st.2 ++ [mkCollision depth it.2 existing_source it.1])
  | None => (<[it.2 := it.1]> st.1, st.2)
  end.

Definition group_collisions (depth : nat)
    (depth_configs : list (string * value)) : list collision :=
  (foldl (scan_step depth) (∅, []) (file_keys depth_configs)).2.

(** The files in the order in which they are merged, and all collisions
    in the order in which they are reported. *)
Definition merge_order (configs : dict) : list (string * value) :=
  let depth_groups := group_by_depth configs in
  sorted (map fst depth_groups) ≫= λ depth, groups_get depth depth_groups.

Definition all_collisions (configs : dict) : list collision :=
  let depth_groups := group_by_depth configs in
  sorted (map fst depth_groups)
    ≫= λ depth, group_collisions depth (groups_get depth depth_groups).

(** The files of a given depth, and among them those that define [key]. *)
Definition at_depth (depth : nat) (configs : dict) : list (string * value) :=
  filter (λ fc, path_depth fc.1 = depth) configs.

Definition defining (key : string) (configs : list (string * value))
  : list (string * value) :=
  filter (λ fc, dict_mem key (entries_of fc.2)) configs.

(** The detector state [st], started with the diagnostics [errs0], has
    reached the structured state [ps]. *)
Definition tracks (errs0 : list string) (st : detector)
    (ps : gmap string string * list collision) : Prop :=
  all_keys_at_depth st = dom ps.1
  ∧ key_sources st = ps.1
  ∧ errors st = errs0 ++ map collision_message ps.2.

(** The files that bring [key], in the order of the check. *)
Definition files_with_key (key : string) (items : list (string * string))
  : list string :=
  map fst (filter (λ it, it.2 = key) items).

(** The collisions on [key] among the files [paths] of one depth: every
    file after the first, each against the first. *)
Definition blamed (depth : nat) (key : string) (paths : list string)
  : list collision :=
  match paths with
  | [] => []
  | first :: later => map (mkCollision depth key first) later
  end.

(** ** A small world to run the functions in *)

(** The tree of the repository's first test below [/aaa], with a file
    that is not YAML added to the base. *)
Definition example_tree : dir :=
  Dir [("a", Dir [("a", Dir [("b", Dir [] ["config.yaml"])] []);
                  ("c", Dir [("b", Dir [] ["config.yaml"])] [])]
                 ["config.yaml"])]
      ["config.yaml"; "notes.txt"].

(** [/aaa] holds that tree and [/empty] a directory without YAML files;
    the file in [/aaa/a] is an empty document and the one in
    [/aaa/a/c/b] is not YAML. *)
Definition example_world : world :=
  mkWorld
    (λ p, names p)
    (λ p, if bool_decide (p = mkPath true ["aaa"]) then Some example_tree
          else if bool_decide (p = mkPath true ["empty"])
               then Some (Dir [] ["readme.txt"])
               else None)
    (λ s, if String.eqb s "/aaa/config.yaml"
          then inr (VDict [("name", VScalar (SStr "base"))])
          else if String.eqb s "/aaa/a/config.yaml"
               then inr (VScalar SNone)
               else if String.eqb s "/aaa/a/a/b/config.yaml"
                    then inr (VDict [("name", VScalar (SStr "leaf"))])
                    else inl "mapping values are not allowed here").

(** The tree and the files of the repository's integration test. *)
Definition integration_world : world :=
  mkWorld
    (λ p, names p)
    (λ p, if bool_decide (p = mkPath true ["aaa"])
          then Some (Dir [("env",
                           Dir [("prod",
                                 Dir [("region",
                                       Dir [("eu", Dir [] ["config.yaml"])] [])]
                                     ["config.yaml"])] [])]
                         ["config.yaml"])
          else None)
    (λ s, if String.eqb s "/aaa/config.yaml"
          then inr (VDict [("name", VScalar (SStr "base_config"));
                           ("settings",
                            VDict [("retries", VScalar (SInt 3));
                                   ("timeout", VScalar (SInt 30))])])
          else if String.eqb s "/aaa/env/prod/config.yaml"
               then inr (VDict [("database",
                                 VDict [("host",
                                         VScalar (SStr "prod.db.example.com"))]);
                                ("name", VScalar (SStr "production_config"));
                                ("settings",
                                 VDict [("ssl", VScalar (SBool true));
                                        ("timeout", VScalar (SInt 60))])])
               else if String.eqb s "/aaa/env/prod/region/eu/config.yaml"
                    then inr (VDict [("database",
                                      VDict [("host",
                                              VScalar (SStr "eu.prod.db.example.com"));
                                             ("region",
                                              VScalar (SStr "eu-west-1"))]);
                                     ("name", VScalar (SStr "eu_production_config"));
                                     ("settings",
                                      VDict [("timeout", VScalar (SInt 90))])])
                    else inl "No such file or directory").

(** * Properties *)

(** ** The repository's tests, run on the embedding *)

Example test_find_yaml_files_in_hierarchy_basic :
  find_yaml_files_in_hierarchy example_world
    (mkPath true ["aaa"]) (mkPath true ["aaa"; "a"; "a"; "b"])
  = inr [mkPath true ["aaa"; "config.yaml"];
         mkPath true ["aaa"; "a"; "config.yaml"];
         mkPath true ["aaa"; "a"; "a"; "b"; "config.yaml"]].
Proof. reflexivity. Qed.

Example test_find_yaml_files_in_hierarchy_target_outside_base :
  find_yaml_files_in_hierarchy example_world
    (mkPath true ["aaa"]) (mkPath true ["bbb"])
  = inl (ValueError "Target path /bbb is not within base directory /aaa").
Proof. reflexivity. Qed.

Example test_deep_merge_nested :
  _deep_merge
    [("app", VDict [("database", VDict [("host", VScalar (SStr "localhost"));
                                        ("port", VScalar (SInt 5432))]);
                    ("cache", VDict [("enabled", VScalar (SBool true))])])]
    [("app", VDict [("database",
                     VDict [("host", VScalar (SStr "prod.example.com"));
                            ("ssl", VScalar (SBool true))]);
                    ("logging", VDict [("level", VScalar (SStr "debug"))])])]
  = [("app", VDict [("database",
                     VDict [("host", VScalar (SStr "prod.example.com"));
                            ("port", VScalar (SInt 5432));
                            ("ssl", VScalar (SBool true))]);
                    ("cache", VDict [("enabled", VScalar (SBool true))]);
                    ("logging", VDict [("level", VScalar (SStr "debug"))])])].
Proof. reflexivity. Qed.

Example test_merge_configs_by_depth_basic :
  merge_configs_by_depth
    [("/base/config.yaml",
      VDict [("key1", VScalar (SStr "base_value"));
             ("key2", VScalar (SStr "base_value2"))]);
     ("/base/level1/config.yaml",
      VDict [("key2", VScalar (SStr "level1_value"));
             ("key3", VScalar (SStr "level1_value3"))]);
     ("/base/level1/level2/config.yaml",
      VDict [("key3", VScalar (SStr "level2_value"));
             ("key4", VScalar (SStr "level2_value4"))])]
  = inr ([("key1", VScalar (SStr "base_value"));
          ("key2", VScalar (SStr "level1_value"));
          ("key3", VScalar (SStr "level2_value"));
          ("key4", VScalar (SStr "level2_value4"))], []).
Proof. vm_compute. reflexivity. Qed.

Example test_merge_hierarchical_configs_integration :
  merge_hierarchical_configs integration_world
    (mkPath true ["aaa"]) (mkPath true ["aaa"; "env"; "prod"; "region"; "eu"])
  = inr ([("name", VScalar (SStr "eu_production_config"));
          ("settings", VDict [("retries", VScalar (SInt 3));
                              ("timeout", VScalar (SInt 90));
                              ("ssl", VScalar (SBool true))]);
          ("database", VDict [("host", VScalar (SStr "eu.prod.db.example.com"));
                              ("region", VScalar (SStr "eu-west-1"))])], []).
Proof. vm_compute. reflexivity. Qed.

(** A document that is a sequence, not a mapping, makes the merge raise. *)
Example merge_configs_by_depth_sequence_document :
  merge_configs_by_depth [("/base/config.yaml", VList [VScalar (SInt 1)])]
  = inl (AttributeError "'list' object has no attribute 'keys'").
Proof. vm_compute. reflexivity. Qed.

(** ** Induction on values *)

Lemma value_ind (P : value → Prop) :
  (∀ s, P (VScalar s)) →
  (∀ items, Forall P items → P (VList items)) →
  (∀ entries, Forall (λ kv, P kv.2) entries → P (VDict entries)) →
  ∀ v, P v.
Proof.
  intros Hs Hl Hd. fix IH 1. intros [s|items|entries].
  - apply Hs.
  - apply Hl. induction items as [|x xs IHxs]; constructor; [apply IH|exact IHxs].
  - apply Hd. induction entries as [|[k x] xs IHxs]; constructor;
      [apply IH|exact IHxs].
Qed.

(** ** Association lists *)

Lemma dict_get_set_eq {V} k (v : V) d : dict_get k (dict_set k v d) = Some v.
Proof.
  induction d as [|[k' w] d IH]; cbn.
  - by rewrite String.eqb_refl.
  - destruct (String.eqb k' k) eqn:E; cbn; rewrite E; [done|exact IH].
Qed.

Lemma dict_get_set_ne {V} k k' (v : V) d :
  k ≠ k' → dict_get k' (dict_set k v d) = dict_get k' d.
Proof.
  intros Hne. induction d as [|[k0 w] d IH]; cbn.
  - destruct (String.eqb_spec k k'); [done|done].
  - destruct (String.eqb_spec k0 k) as [->|Hk0]; cbn.
    + destruct (String.eqb_spec k k'); [done|done].
    + destruct (String.eqb_spec k0 k'); [done|exact IH].
Qed.

Lemma dict_set_same {V} k (v : V) d : dict_get k d = Some v → dict_set k v d = d.
Proof.
  induction d as [|[k0 w] d IH]; cbn; [done|].
  destruct (String.eqb_spec k0 k) as [->|Hne].
  - by intros [= ->].
  - intros H. by rewrite IH.
Qed.

Lemma dict_get_None {V} k (d : list (string * V)) :
  dict_get k d = None ↔ k ∉ map fst d.
Proof.
  induction d as [|[k0 w] d IH]; cbn.
  - split; [intros _; apply not_elem_of_nil|done].
  - rewrite not_elem_of_cons. destruct (String.eqb_spec k0 k) as [->|Hne].
    + split; [done|]. intros [? _]. done.
    + rewrite IH. split; [intros H; by split|by intros [_ H]].
Qed.

Lemma dict_get_elem_of {V} k (v : V) d :
  NoDup (map fst d) → (k, v) ∈ d → dict_get k d = Some v.
Proof.
  induction d as [|[k0 w] d IH]; cbn.
  - intros _ H. by apply elem_of_nil in H.
  - rewrite NoDup_cons. intros [Hk0 Hnd] [[= -> ->]|Hin]%elem_of_cons.
    + by rewrite String.eqb_refl.
    + destruct (String.eqb_spec k0 k) as [->|Hne]; [|by apply IH].
      exfalso. apply Hk0. apply list_elem_of_fmap. by exists (k, v).
Qed.

Lemma dict_get_Some_elem_of {V} k (v : V) d : dict_get k d = Some v → (k, v) ∈ d.
Proof.
  induction d as [|[k0 w] d IH]; cbn; [done|].
  destruct (String.eqb_spec k0 k) as [->|Hne].
  - intros [= ->]. apply elem_of_cons. by left.
  - intros H. apply elem_of_cons. right. by apply IH.
Qed.

(** ** [_deep_merge] *)

Lemma _deep_merge_unfold base override :
  _deep_merge base override = foldl merge_step base override.
Proof.
  unfold _deep_merge. cbn [deep_merge_value].
  revert base. induction override as [|[k v] rest IH]; intros base; [done|].
  cbn [foldl]. rewrite <- IH. f_equal.
  unfold merge_step. cbn [fst snd].
  destruct (dict_get k base) as [[]|]; destruct v; reflexivity.
Qed.

Example deep_merge_basic :
  _deep_merge
    [("a", VScalar (SInt 1)); ("b", VScalar (SInt 2));
     ("c", VDict [("nested", VScalar (SStr "base"))])]
    [("b", VScalar (SInt 3)); ("d", VScalar (SInt 4));
     ("c", VDict [("nested", VScalar (SStr "override"));
                  ("new", VScalar (SStr "value"))])]
  = [("a", VScalar (SInt 1)); ("b", VScalar (SInt 3));
     ("c", VDict [("nested", VScalar (SStr "override"));
                  ("new", VScalar (SStr "value"))]);
     ("d", VScalar (SInt 4))].
Proof. reflexivity. Qed.

Lemma merge_step_set result k v :
  merge_step result (k, v) = dict_set k (merged_value (dict_get k result) v) result.
Proof.
  unfold merge_step, merged_value. cbn [fst snd].
  destruct (dict_get k result) as [[]|]; destruct v; reflexivity.
Qed.

Lemma merge_step_get result k v k' :
  dict_get k' (merge_step result (k, v))
  = if decide (k = k') then Some (merged_value (dict_get k result) v)
    else dict_get k' result.
Proof.
  rewrite merge_step_set. destruct (decide (k = k')) as [<-|Hne].
  - apply dict_get_set_eq.
  - by apply dict_get_set_ne.
Qed.

Lemma wf_dict_cons k v d :
  wf_dict ((k, v) :: d) = true →
  (k ∉ map fst d) ∧ wf_value v = true ∧ wf_dict d = true.
Proof.
  unfold wf_dict. cbn. rewrite !andb_true_iff, !bool_decide_eq_true.
  rewrite NoDup_cons. intros [[? ?] [? ?]]. by repeat split.
Qed.

Lemma wf_dict_NoDup d : wf_dict d = true → NoDup (map fst d).
Proof.
  unfold wf_dict. cbn. rewrite andb_true_iff, bool_decide_eq_true. by intros [? _].
Qed.

Lemma wf_dict_elem_of d k v :
  wf_dict d = true → (k, v) ∈ d → wf_value v = true.
Proof.
  unfold wf_dict. cbn. rewrite andb_true_iff. intros [_ Hall] Hin.
  rewrite forallb_forall in Hall. apply (Hall (k, v)). by apply list_elem_of_In.
Qed.

(** Key by key: an override key holds the merged value, any other key
    keeps what the base had. *)
Lemma deep_merge_get A B k :
  NoDup (map fst B) →
  dict_get k (_deep_merge A B)
  = match dict_get k B with
    | Some vb => Some (merged_value (dict_get k A) vb)
    | None => dict_get k A
    end.
Proof.
  rewrite _deep_merge_unfold. revert A.
  induction B as [|[k0 v0] B IH]; intros A Hnd; [done|].
  cbn [map fst] in Hnd. apply NoDup_cons in Hnd as [Hk0 Hnd].
  cbn [foldl dict_get]. rewrite IH by done. rewrite !merge_step_get.
  destruct (String.eqb_spec k0 k) as [->|Hne].
  - apply dict_get_None in Hk0. rewrite Hk0. by rewrite decide_True.
  - by rewrite decide_False.
Qed.

(** Along a path of keys that the override defines. *)
Lemma deep_merge_get_path p :
  ∀ A B vb,
    wf_dict B = true →
    get_path p (VDict B) = Some vb →
    get_path p (VDict (_deep_merge A B))
    = Some (merged_value (get_path p (VDict A)) vb).
Proof.
  induction p as [|k p IH]; intros A B vb Hwf Hb.
  - cbn in *. by injection Hb as <-.
  - cbn [get_path] in *.
    rewrite deep_merge_get by by apply wf_dict_NoDup.
    destruct (dict_get k B) as [b1|] eqn:HkB; [|done].
    assert (wf_value b1 = true) as Hwf1.
    { eapply wf_dict_elem_of; [done|]. by apply dict_get_Some_elem_of. }
    destruct (dict_get k A) as [a1|] eqn:HkA; cbn [merged_value].
    + destruct a1 as [sa|la|a], b1 as [sb|lb|b];
        try (destruct p; cbn in *; [by injection Hb as <-|done]).
      by apply IH.
    + rewrite Hb. by destruct vb.
Qed.

(** A loop whose every iteration leaves the state as it is. *)
Lemma foldl_fixed {S A} (f : S → A → S) (st : S) (l : list A) :
  (∀ a, a ∈ l → f st a = st) → foldl f st l = st.
Proof.
  induction l as [|a l IH]; intros H; [done|].
  cbn. rewrite H by (apply elem_of_cons; by left).
  apply IH. intros b Hb. apply H. apply elem_of_cons. by right.
Qed.

(** Merging a well-formed mapping into itself changes nothing. *)
Lemma deep_merge_self v :
  wf_value v = true →
  match v with
  | VDict d => _deep_merge d d = d
  | _ => True
  end.
Proof.
  induction v as [s|items _|d IH] using value_ind; [done|done|].
  intros Hwf. rewrite _deep_merge_unfold. apply foldl_fixed.
  intros [k v] Hin. rewrite merge_step_set.
  rewrite (dict_get_elem_of k v d) by (by apply wf_dict_NoDup || done).
  apply dict_set_same.
  rewrite (dict_get_elem_of k v d) by (by apply wf_dict_NoDup || done).
  f_equal. destruct v as [s|items|o]; [done|done|]. cbn [merged_value].
  rewrite Forall_forall in IH.
  rewrite (IH (k, VDict o) Hin); [done|]. by eapply wf_dict_elem_of.
Qed.

Lemma deep_merge_idem_value v :
  wf_value v = true →
  match v with
  | VDict B => ∀ A, _deep_merge (_deep_merge A B) B = _deep_merge A B
  | _ => True
  end.
Proof.
  induction v as [s|items _|B IH] using value_ind; [done|done|].
  intros Hwf A. pose proof (wf_dict_NoDup B Hwf) as Hnd.
  rewrite (_deep_merge_unfold (_deep_merge A B) B). apply foldl_fixed.
  intros [k vb] Hin. rewrite merge_step_set.
  pose proof (dict_get_elem_of k vb B Hnd Hin) as HkB.
  assert (dict_get k (_deep_merge A B) = Some (merged_value (dict_get k A) vb))
    as HkM by (by rewrite deep_merge_get, HkB).
  rewrite HkM. apply dict_set_same. rewrite HkM. f_equal. symmetry.
  assert (wf_value vb = true) as Hwfb by (by eapply wf_dict_elem_of).
  rewrite Forall_forall in IH. specialize (IH (k, vb) Hin Hwfb). cbn [snd] in IH.
  destruct vb as [s|items|o].
  - by destruct (dict_get k A) as [[]|].
  - by destruct (dict_get k A) as [[]|].
  - destruct (dict_get k A) as [[sa|la|a]|]; cbn [merged_value].
    + f_equal. apply (deep_merge_self (VDict o) Hwfb).
    + f_equal. apply (deep_merge_self (VDict o) Hwfb).
    + f_equal. apply IH.
    + f_equal. apply (deep_merge_self (VDict o) Hwfb).
Qed.

(** With frames for the nesting of the override, the call returns what
    the recursion computes. *)
Lemma deep_merge_limited_enough frames :
  ∀ A B, height (VDict B) ≤ frames →
         deep_merge_limited frames A B = inr (_deep_merge A B).
Proof.
  induction frames as [|frames IH]; intros A B Hh; [cbn in Hh; lia|].
  rewrite _deep_merge_unfold. cbn [deep_merge_limited].
  revert A. induction B as [|[k v] B IHB]; intros A; [done|].
  assert (height v ≤ frames ∧ height (VDict B) ≤ S frames) as [Hv HB].
  { cbn [height foldr snd] in Hh |- *. lia. }
  cbn [for_each foldl fst snd].
  replace (match dict_get k A with
           | Some (VDict sub) =>
               match v with
               | VDict o =>
                   let* merged := deep_merge_limited frames sub o
                   in ret (dict_set k (VDict merged) A)
               | _ => ret (dict_set k v A)
               end
           | _ => ret (dict_set k v A)
           end) with (ret (A := dict) (merge_step A (k, v))).
  { cbn [bind ret]. by apply IHB. }
  unfold merge_step. cbn [fst snd].
  destruct (dict_get k A) as [[s|l|sub]|]; try done.
  destruct v as [s|l|o]; try done.
  by rewrite (IH sub o Hv).
Qed.

(** The limit is met by a call nested below the last frame. *)
Example deep_merge_call_recursion_limit :
  deep_merge_call 1 (VDict [("a", VDict [("b", VScalar (SInt 1))])])
                    (VDict [("a", VDict [("c", VScalar (SInt 2))])])
  = inl (RecursionError "maximum recursion depth exceeded")
  ∧ deep_merge_call 2 (VDict [("a", VDict [("b", VScalar (SInt 1))])])
                      (VDict [("a", VDict [("c", VScalar (SInt 2))])])
    = inr (VDict [("a", VDict [("b", VScalar (SInt 1));
                               ("c", VScalar (SInt 2))])]).
Proof. split; reflexivity. Qed.

(** A sequence as base is copied, and written to by the first entry of
    the override: with no entry the call returns the copy. *)
Example deep_merge_call_sequence_base :
  deep_merge_call 1 (VList [VScalar (SInt 1); VScalar (SInt 2)]) (VDict [])
  = inr (VList [VScalar (SInt 1); VScalar (SInt 2)])
  ∧ deep_merge_call 1 (VList [VScalar (SInt 1); VScalar (SInt 2)])
                      (VDict [("a", VScalar (SInt 1))])
    = inl (TypeError "list indices must be integers or slices, not str").
Proof. split; reflexivity. Qed.

(** C2, as the code has it.  For all mappings [A] (base) and [B]
    (override), and with as many calls left before the recursion limit
    as [B] is nested deep, the call returns a mapping [M], and wherever
    [B] defines a value [vb] along a path of keys, [M] holds there: [vb]
    itself when [vb] is not a mapping or when [A] has nothing at that
    path; the recursive merge of the two mappings when both hold one;
    and [vb], replacing the base's value whole, when the two kinds
    differ.  A sequence in the override is taken as it is, and a key
    that only [A] has keeps its value.  With an override that is not a
    mapping no call returns: it raises [AttributeError], whatever the
    base. *)
Theorem deep_merge_override_wins :
  (∀ (frames : nat) (A B : dict),
     wf_dict B = true →
     height (VDict B) ≤ frames →
     ∃ M,
       deep_merge_call frames (VDict A) (VDict B) = inr (VDict M)
       ∧ (∀ k, dict_get k B = None → dict_get k M = dict_get k A)
       ∧ ∀ (p : list string) (vb : value),
           get_path p (VDict B) = Some vb →
           (isinstance_dict vb = false → get_path p (VDict M) = Some vb)
           ∧ (get_path p (VDict A) = None → get_path p (VDict M) = Some vb)
           ∧ (∀ a b, get_path p (VDict A) = Some (VDict a) → vb = VDict b →
                     get_path p (VDict M) = Some (VDict (_deep_merge a b)))
           ∧ (∀ va, get_path p (VDict A) = Some va →
                    isinstance_dict va && isinstance_dict vb = false →
                    get_path p (VDict M) = Some vb)
           ∧ (∀ items, vb = VList items →
                       get_path p (VDict M) = Some (VList items)))
  ∧ (∀ (frames : nat) (base override : value),
       0 < frames →
       isinstance_dict override = false →
       ∃ msg, deep_merge_call frames base override = inl (AttributeError msg)).
Proof.
  split.
  - intros frames A B Hwf Hh. exists (_deep_merge A B). split; [|split].
    + destruct frames as [|frames]; [cbn in Hh; lia|].
      cbn [deep_merge_call items_of bind ret].
      by rewrite (deep_merge_limited_enough (S frames) A B Hh).
    + intros k Hk. rewrite (deep_merge_get A B k (wf_dict_NoDup B Hwf)).
      by rewrite Hk.
    + intros p vb Hb. rewrite (deep_merge_get_path p A B vb Hwf Hb).
      repeat split.
      * intros Hvb. f_equal.
        destruct (get_path p (VDict A)) as [[]|]; by destruct vb.
      * by intros ->.
      * by intros a b -> ->.
      * intros va -> Hkinds. f_equal. destruct va, vb; done.
      * intros items ->. f_equal. by destruct (get_path p (VDict A)) as [[]|].
  - intros [|frames] base override Hframes Hover; [lia|].
    destruct override as [s|items|entries]; [| |done];
      destruct base as [sb|itemsb|entriesb]; cbn; by eexists.
Qed.

Lemma deep_merge_override_wins_witness :
  let A := [("a", VScalar (SInt 1));
            ("c", VDict [("nested", VScalar (SStr "base"))])] in
  let B := [("b", VList [VScalar (SInt 3)]);
            ("c", VDict [("nested", VScalar (SStr "override"))])] in
  wf_dict B = true
  ∧ height (VDict B) ≤ 2
  ∧ get_path ["c"; "nested"] (VDict B) = Some (VScalar (SStr "override"))
  ∧ (∃ M, deep_merge_call 2 (VDict A) (VDict B) = inr (VDict M)
          ∧ dict_get "a" M = Some (VScalar (SInt 1))
          ∧ get_path ["c"; "nested"] (VDict M) = Some (VScalar (SStr "override")))
  ∧ ∃ msg, deep_merge_call 2 (VDict A) (VList [VScalar (SInt 3)])
           = inl (AttributeError msg).
Proof.
  intros A B.
  assert (height (VDict B) ≤ 2) as Hh by (vm_compute; lia).
  split; [reflexivity|]. split; [exact Hh|]. split; [reflexivity|]. split.
  - destruct (proj1 deep_merge_override_wins 2 A B eq_refl Hh)
      as (M & Hcall & Hkeep & Hpaths).
    exists M. split; [exact Hcall|]. split; [exact (Hkeep "a" eq_refl)|].
    destruct (Hpaths ["c"; "nested"] (VScalar (SStr "override")) eq_refl)
      as (Hscalar & _).
    apply Hscalar. reflexivity.
  - apply (proj2 deep_merge_override_wins 2 (VDict A)
             (VList [VScalar (SInt 3)])); [lia|reflexivity].
Defined.

(** C2, as stated for all structured values, fails where an argument is
    not a mapping: with a mapping as base and a sequence as override
    (two kinds that differ) the call raises [AttributeError] instead of
    returning the override. *)
Lemma deep_merge_call_sequence_raises :
  deep_merge_call 1000 (VDict [("a", VScalar (SInt 1))])
                  (VList [VScalar (SInt 1); VScalar (SInt 2)])
  = inl (AttributeError "'list' object has no attribute 'items'")
  ∧ deep_merge_call 1000 (VDict [("a", VScalar (SInt 1))])
                    (VList [VScalar (SInt 1); VScalar (SInt 2)])
    ≠ inr (VList [VScalar (SInt 1); VScalar (SInt 2)]).
Proof. split; [reflexivity|discriminate]. Qed.

(** C8: applying the same override a second time changes nothing:
    [_deep_merge(_deep_merge(A, B), B) = _deep_merge(A, B)]. *)
Theorem deep_merge_idempotent (A B : dict) :
  wf_dict B = true →
  _deep_merge (_deep_merge A B) B = _deep_merge A B.
Proof.
  intros Hwf. apply (deep_merge_idem_value (VDict B) Hwf).
Qed.

Lemma deep_merge_idempotent_witness :
  let A := [("a", VScalar (SInt 1));
            ("c", VDict [("nested", VScalar (SStr "base"))])] in
  let B := [("b", VList [VScalar (SInt 3)]);
            ("c", VDict [("nested", VScalar (SStr "override"));
                         ("new", VDict [])])] in
  wf_dict B = true
  ∧ _deep_merge (_deep_merge A B) B = _deep_merge A B.
Proof.
  intros A B. split; [reflexivity|].
  apply (deep_merge_idempotent A B). reflexivity.
Defined.

(** ** [parse_yaml_configs] *)

Lemma for_each_app {S A} (body : S → A → result S) st l1 l2 :
  for_each body st (l1 ++ l2)
  = let* st' := for_each body st l1 in for_each body st' l2.
Proof.
  revert st. induction l1 as [|a l1 IH]; intros st; [done|].
  cbn. destruct (body st a) as [e|st']; [done|]. apply IH.
Qed.

(** While every file loads, the loop goes on. *)
Lemma parse_all_good w acc good :
  (∀ f, f ∈ good → ∃ doc, load w (path_str f) = inr doc) →
  ∃ configs, for_each (parse_one w) acc good = inr configs.
Proof.
  revert acc. induction good as [|f good IH]; intros acc Hgood.
  - by exists acc.
  - destruct (Hgood f) as [doc Hdoc]; [apply elem_of_cons; by left|].
    cbn. unfold parse_one at 1. rewrite Hdoc. cbn. apply IH.
    intros g Hg. apply Hgood. apply elem_of_cons. by right.
Qed.

(** A list with an unparsable file splits at the first one. *)
Lemma first_unparsable w (yaml_files : list Path) :
  (∃ f, f ∈ yaml_files ∧ ∃ e, load w (path_str f) = inl e) →
  ∃ good bad rest e,
    yaml_files = good ++ bad :: rest
    ∧ (∀ f, f ∈ good → ∃ doc, load w (path_str f) = inr doc)
    ∧ load w (path_str bad) = inl e.
Proof.
  induction yaml_files as [|f l IH]; intros (g & Hg & e & He).
  - by apply elem_of_nil in Hg.
  - destruct (load w (path_str f)) as [e'|doc] eqn:Hf.
    + exists [], f, l, e'. split; [done|]. split; [|done].
      intros ? H. by apply elem_of_nil in H.
    + destruct IH as (good & bad & rest & e' & -> & Hgood & Hbad).
      { apply elem_of_cons in Hg as [->|Hg]; [congruence|].
        exists g. split; [done|]. by exists e. }
      exists (f :: good), bad, rest, e'. split; [done|]. split; [|done].
      intros h [->|Hh]%elem_of_cons; [by exists doc|by apply Hgood].
Qed.

Lemma parse_stops_at_bad w good bad rest e :
  (∀ f, f ∈ good → ∃ doc, load w (path_str f) = inr doc) →
  load w (path_str bad) = inl e →
  parse_yaml_configs w (good ++ bad :: rest)
  = inl (Exception ("Failed to parse " +:+ path_str bad +:+ ": " +:+ e)).
Proof.
  intros Hgood Hbad. unfold parse_yaml_configs. rewrite for_each_app.
  destruct (parse_all_good w [] good Hgood) as [configs ->].
  cbn. unfold parse_one. by rewrite Hbad.
Qed.

(** C6: when some discovered file cannot be parsed, [parse_yaml_configs]
    raises an error naming the first such file and returns no mapping,
    and [merge_hierarchical_configs] raises the same error instead of
    returning a merged result. *)
Theorem parse_error_aborts (w : world) (yaml_files : list Path) :
  (∃ f, f ∈ yaml_files ∧ ∃ e, load w (path_str f) = inl e) →
  ∃ good bad rest e,
    yaml_files = good ++ bad :: rest
    ∧ (∀ f, f ∈ good → ∃ doc, load w (path_str f) = inr doc)
    ∧ load w (path_str bad) = inl e
    ∧ parse_yaml_configs w yaml_files
      = inl (Exception ("Failed to parse " +:+ path_str bad +:+ ": " +:+ e))
    ∧ ∀ base_dir target_path,
        find_yaml_files_in_hierarchy w base_dir target_path = inr yaml_files →
        merge_hierarchical_configs w base_dir target_path
        = inl (Exception ("Failed to parse " +:+ path_str bad +:+ ": " +:+ e)).
Proof.
  intros Hbad.
  destruct (first_unparsable w yaml_files Hbad)
    as (good & bad & rest & e & -> & Hgood & He).
  exists good, bad, rest, e. repeat split; [done|done| |].
  - by apply parse_stops_at_bad.
  - intros base_dir target_path Hfind. unfold merge_hierarchical_configs.
    rewrite Hfind. cbn [bind].
    rewrite (parse_stops_at_bad w good bad rest e Hgood He).
    by destruct good.
Qed.

(** An entry that already holds what its file loads to survives the loop. *)
Lemma parse_loop_keeps w s yaml_files :
  ∀ acc configs,
    (∀ doc, load w s = inr doc → dict_get s acc = Some (or_empty_dict doc)) →
    for_each (parse_one w) acc yaml_files = inr configs →
    ∀ doc, load w s = inr doc → dict_get s configs = Some (or_empty_dict doc).
Proof.
  induction yaml_files as [|f l IH]; intros acc configs Hacc Hrun.
  - cbn in Hrun. by injection Hrun as <-.
  - cbn in Hrun. unfold parse_one at 1 in Hrun.
    destruct (load w (path_str f)) as [e|d] eqn:Hf; [done|]. cbn in Hrun.
    eapply IH; [|exact Hrun]. intros doc Hdoc.
    destruct (decide (path_str f = s)) as [<-|Hne].
    + rewrite dict_get_set_eq. congruence.
    + rewrite dict_get_set_ne by done. by apply Hacc.
Qed.

(** Every file of the list is recorded under its name, as the document
    that [x or {}] makes of what it loads to. *)
Lemma parse_records w yaml_files :
  ∀ acc configs f doc,
    for_each (parse_one w) acc yaml_files = inr configs →
    f ∈ yaml_files →
    load w (path_str f) = inr doc →
    dict_get (path_str f) configs = Some (or_empty_dict doc).
Proof.
  induction yaml_files as [|g l IH]; intros acc configs f doc Hrun Hin Hdoc.
  - by apply elem_of_nil in Hin.
  - cbn in Hrun. unfold parse_one at 1 in Hrun.
    destruct (load w (path_str g)) as [e|d] eqn:Hg; [done|]. cbn in Hrun.
    apply elem_of_cons in Hin as [->|Hin]; [|by eapply IH].
    eapply parse_loop_keeps; [|exact Hrun|exact Hdoc].
    intros doc' Hdoc'. rewrite dict_get_set_eq. congruence.
Qed.

(** C10: a file whose document is any falsy value (null, false, 0, the
    empty string, the empty sequence or the empty mapping) is recorded
    as the empty mapping, not as the value it parsed to. *)
Theorem parse_coerces_falsy (w : world) (yaml_files : list Path)
    (configs : dict) (f : Path) (doc : value) :
  parse_yaml_configs w yaml_files = inr configs →
  f ∈ yaml_files →
  load w (path_str f) = inr doc →
  doc ∈ [VScalar SNone; VScalar (SBool false); VScalar (SInt 0);
         VScalar (SStr ""); VList []; VDict []] →
  dict_get (path_str f) configs = Some (VDict []).
Proof.
  intros Hrun Hin Hdoc Hfalsy.
  rewrite (parse_records w yaml_files [] configs f doc Hrun Hin Hdoc).
  repeat (apply elem_of_cons in Hfalsy as [->|Hfalsy]; [done|]).
  by apply elem_of_nil in Hfalsy.
Qed.

(** ** [merge_hierarchical_configs] *)

(** C7: when discovery finds no file, the result is the empty mapping
    with the single diagnostic "No YAML files found in hierarchy from
    {base} to {target}", and nothing is raised. *)
Theorem no_files_diagnostic (w : world) (base_dir target_path : Path) :
  find_yaml_files_in_hierarchy w base_dir target_path = inr [] →
  merge_hierarchical_configs w base_dir target_path
  = inr ([], ["No YAML files found in hierarchy from " +:+ path_str base_dir
              +:+ " to " +:+ path_str target_path]).
Proof.
  intros Hfind. unfold merge_hierarchical_configs. by rewrite Hfind.
Qed.

(** ** Strings *)

Lemma prefix_empty s : String.prefix "" s = true.
Proof. by destruct s. Qed.

Lemma prefix_app_same x s t :
  String.prefix (x +:+ s) (x +:+ t) = String.prefix s t.
Proof.
  induction x as [|c x IH]; [done|].
  simpl. destruct (ascii_dec c c); [exact IH|done].
Qed.

Lemma prefix_app x t : String.prefix x (x +:+ t) = true.
Proof.
  induction x as [|c x IH]; [apply prefix_empty|].
  simpl. destruct (ascii_dec c c); [exact IH|done].
Qed.

Lemma prefix_refl x : String.prefix x x = true.
Proof.
  induction x as [|c x IH]; [done|].
  simpl. destruct (ascii_dec c c); [exact IH|done].
Qed.

Lemma concat_prefix sep (l r : list string) :
  String.prefix (String.concat sep l) (String.concat sep (l ++ r)) = true.
Proof.
  induction l as [|x l IH]; [apply prefix_empty|].
  destruct l as [|y l].
  - destruct r as [|z r]; simpl; [apply prefix_refl|apply prefix_app].
  - change (String.prefix (x +:+ sep +:+ String.concat sep (y :: l))
              (x +:+ sep +:+ String.concat sep ((y :: l) ++ r)) = true).
    by rewrite !prefix_app_same.
Qed.

Lemma substring_all s : substring 0 (String.length s) s = s.
Proof. induction s as [|c s IH]; [done|]. simpl. by rewrite IH. Qed.

Lemma substring_app_suffix pre p :
  substring (String.length pre) (String.length p) (pre +:+ p) = p.
Proof. induction pre as [|c pre IH]; [apply substring_all|exact IH]. Qed.

Lemma length_app_string s t :
  String.length (s +:+ t) = String.length s + String.length t.
Proof. induction s as [|c s IH]; [done|]. simpl. by rewrite IH. Qed.

Lemma substring_split s (k : nat) :
  (k ≤ String.length s)%nat →
  s = substring 0 k s +:+ substring k (String.length s - k) s.
Proof.
  revert k. induction s as [|c s IH]; intros k Hk.
  - simpl in Hk. by replace k with 0 by lia.
  - destruct k as [|k]; simpl.
    + by rewrite substring_all.
    + change (String c s
              = String c (substring 0 k s
                          +:+ substring k (String.length s - k) s)).
      f_equal. apply IH. simpl in Hk. lia.
Qed.

(** [s.endswith(p)] holds exactly when [s] is some text followed by [p]. *)
Lemma endswith_spec s p :
  endswith s p = true ↔ ∃ stem, s = stem +:+ p.
Proof.
  unfold endswith. rewrite andb_true_iff, Nat.leb_le, String.eqb_eq. split.
  - intros [Hle Hsub].
    exists (substring 0 (String.length s - String.length p) s).
    pose proof (substring_split s (String.length s - String.length p)) as H.
    replace (String.length s - (String.length s - String.length p))
      with (String.length p) in H by lia.
    rewrite Hsub in H. apply H. lia.
  - intros [stem ->]. rewrite length_app_string. split; [lia|].
    replace (String.length stem + String.length p - String.length p)
      with (String.length stem) by lia.
    apply substring_app_suffix.
Qed.

Lemma is_yaml_name_spec file :
  is_yaml_name file = true
  ↔ (∃ stem, file = stem +:+ ".yaml") ∨ (∃ stem, file = stem +:+ ".yml").
Proof. unfold is_yaml_name. by rewrite orb_true_iff, !endswith_spec. Qed.

(** The suffix test is case sensitive. *)
Example is_yaml_name_upper : is_yaml_name "CONFIG.YAML" = false.
Proof. reflexivity. Qed.

(** ** Paths *)

Lemma path_below_nil base : path_below base [] = base.
Proof. destruct base. unfold path_below. cbn. by rewrite app_nil_r. Qed.

Lemma path_below_child base name rel :
  path_below (path_child base name) rel = path_below base (name :: rel).
Proof. unfold path_below, path_child. cbn. by rewrite <- app_assoc. Qed.

Lemma path_child_below base rel name :
  path_child (path_below base rel) name = path_below base (rel ++ [name]).
Proof. unfold path_below, path_child. cbn. by rewrite <- app_assoc. Qed.

Lemma relative_to_below base rel :
  relative_to (path_below base rel) base = inr (mkPath false rel).
Proof.
  unfold relative_to, path_below. cbn.
  rewrite bool_decide_eq_true_2.
  - by rewrite drop_app_length.
  - split; [done|]. by rewrite take_app_length.
Qed.

Lemma relative_to_outside self other :
  ¬ names other `prefix_of` names self →
  relative_to self other
  = inl (ValueError ("'" +:+ path_str self +:+ "' is not in the subpath of '"
                     +:+ path_str other +:+ "'")).
Proof.
  intros Hout. unfold relative_to. rewrite bool_decide_eq_false_2; [done|].
  intros [_ Htake]. apply Hout.
  exists (drop (length (names other)) (names self)).
  rewrite <- Htake at 1. by rewrite take_drop.
Qed.

Lemma startswith_below (nb rel : list string) :
  startswith (path_str (mkPath true (nb ++ rel))) (path_str (mkPath true nb))
  = true.
Proof.
  unfold startswith, path_str. cbn [is_absolute names].
  rewrite prefix_app_same. apply concat_prefix.
Qed.

Lemma in_hierarchy_spec root_parts target_parts :
  in_hierarchy root_parts target_parts = true
  ↔ root_parts `prefix_of` target_parts.
Proof.
  unfold in_hierarchy.
  rewrite orb_true_iff, andb_true_iff, Nat.eqb_eq, Nat.leb_le,
    bool_decide_eq_true.
  split.
  - intros [Hnil|[_ Htake]].
    + apply length_zero_iff_nil in Hnil as ->. apply prefix_nil.
    + exists (drop (length root_parts) target_parts).
      rewrite Htake at 1. by rewrite take_drop.
  - intros [k ->]. right. rewrite length_app. split; [lia|].
    by rewrite take_app_length.
Qed.

(** ** The walk *)

Lemma dir_ind (P : dir → Prop) :
  (∀ subs fs, Forall (λ ns, P ns.2) subs → P (Dir subs fs)) →
  ∀ d, P d.
Proof.
  intros HP. fix IH 1. intros [subs fs]. apply HP.
  induction subs as [|[name sub] subs IHsubs]; constructor;
    [apply IH|exact IHsubs].
Qed.

Lemma os_walk_unfold root subs fs :
  os_walk root (Dir subs fs)
  = (root, map fst subs, fs)
    :: (subs ≫= λ ns, os_walk (path_child root ns.1) ns.2).
Proof.
  cbn [os_walk]. f_equal.
  induction subs as [|[name sub] subs IH]; [done|].
  cbn. by rewrite IH.
Qed.

(** The walk visits exactly the directories below its top, each once per
    way of reaching it, and reports each with its own files. *)
Lemma os_walk_spec d :
  ∀ root entry,
    entry ∈ os_walk root d
    ↔ ∃ rel d', subdir_at d rel d'
                ∧ entry = (path_below root rel, map fst (subdirs d'), files d').
Proof.
  induction d as [subs fs IH] using dir_ind. intros root entry.
  rewrite os_walk_unfold, elem_of_cons, list_elem_of_bind.
  rewrite Forall_forall in IH. split.
  - intros [->|([name sub] & Hentry & Hsub)].
    + exists [], (Dir subs fs). split; [constructor|].
      by rewrite path_below_nil.
    + apply (IH _ Hsub) in Hentry as (rel & d' & Hat & ->).
      exists (name :: rel), d'. split.
      * by econstructor.
      * cbn [fst snd]. by rewrite path_below_child.
  - intros (rel & d' & Hat & ->). inversion Hat as [|? name sub rel' ? Hsub Hat']; subst.
    + left. by rewrite path_below_nil.
    + right. exists (name, sub). split; [|done].
      apply (IH _ Hsub). exists rel', d'. split; [done|].
      cbn [fst snd]. by rewrite path_below_child.
Qed.

Lemma visit_below base_dir target_parts acc rel ds fs :
  visit base_dir target_parts acc (path_below base_dir rel, ds, fs)
  = inr (acc ++ yaml_in base_dir target_parts (path_below base_dir rel, ds, fs)).
Proof.
  unfold visit, yaml_in. rewrite relative_to_below. cbn [bind names fst snd].
  change (names (path_below base_dir rel)) with (names base_dir ++ rel).
  rewrite drop_app_length.
  destruct (in_hierarchy rel target_parts); [done|by rewrite app_nil_r].
Qed.

Lemma for_each_visit base_dir target_parts entries :
  ∀ acc,
    (∀ e, e ∈ entries → ∃ rel, e.1.1 = path_below base_dir rel) →
    for_each (visit base_dir target_parts) acc entries
    = inr (acc ++ (entries ≫= yaml_in base_dir target_parts)).
Proof.
  induction entries as [|[[root ds] fs] entries IH]; intros acc Hbelow.
  - cbn. by rewrite app_nil_r.
  - destruct (Hbelow (root, ds, fs)) as [rel Hrel];
      [apply elem_of_cons; by left|].
    cbn [fst] in Hrel. subst root. cbn [for_each].
    rewrite visit_below. cbn [bind]. rewrite IH.
    + by rewrite <- app_assoc.
    + intros e He. apply Hbelow. apply elem_of_cons. by right.
Qed.

(** ** [find_yaml_files_in_hierarchy] *)

(** The outcome when the target is the base or lies below it. *)
Lemma find_below w base_dir target_path rel :
  resolve_names w target_path = resolve_names w base_dir ++ rel →
  find_yaml_files_in_hierarchy w base_dir target_path
  = inr (os_walk_top w (resolve w base_dir) ≫= yaml_in (resolve w base_dir) rel).
Proof.
  intros Hrel. unfold find_yaml_files_in_hierarchy, resolve. rewrite Hrel.
  rewrite startswith_below. cbn [negb].
  change (mkPath true (resolve_names w base_dir ++ rel))
    with (path_below (mkPath true (resolve_names w base_dir)) rel).
  rewrite relative_to_below. cbn [bind names].
  rewrite for_each_visit; [done|].
  intros e He. unfold os_walk_top in He.
  destruct (tree_at w _) as [d|]; [|by apply elem_of_nil in He].
  apply os_walk_spec in He as (rel' & d' & _ & ->). by exists rel'.
Qed.

(** The outcome when it does not: an error either way, from the guard
    when the text of the target does not start with that of the base,
    from [relative_to] otherwise. *)
Lemma find_outside w base_dir target_path :
  ¬ resolve_names w base_dir `prefix_of` resolve_names w target_path →
  find_yaml_files_in_hierarchy w base_dir target_path
  = inl (ValueError
           (if startswith (path_str (resolve w target_path))
                 (path_str (resolve w base_dir))
            then "'" +:+ path_str (resolve w target_path)
                 +:+ "' is not in the subpath of '"
                 +:+ path_str (resolve w base_dir) +:+ "'"
            else "Target path " +:+ path_str (resolve w target_path)
                 +:+ " is not within base directory "
                 +:+ path_str (resolve w base_dir))).
Proof.
  intros Hout. unfold find_yaml_files_in_hierarchy.
  destruct (startswith _ _); cbn [negb]; [|done].
  by rewrite relative_to_outside.
Qed.

(** C1: what decides is the comparison of the resolved components: a
    target that is the base or below it, component by component, is
    accepted, and any other target is refused with a [ValueError], also
    when the text of its path starts with the text of the base's (base
    [/aaa], target [/aaab/x]).  In that last case the guard on the two
    strings lets the target through and the error is the one that
    [relative_to] raises on the components. *)
Theorem discover_rejects_non_descendant (w : world)
    (base_dir target_path : Path) :
  (names (resolve w base_dir) `prefix_of` names (resolve w target_path) →
   ∃ yaml_files,
     find_yaml_files_in_hierarchy w base_dir target_path = inr yaml_files)
  ∧ (¬ names (resolve w base_dir) `prefix_of` names (resolve w target_path) →
     find_yaml_files_in_hierarchy w base_dir target_path
     = inl (ValueError
              (if startswith (path_str (resolve w target_path))
                    (path_str (resolve w base_dir))
               then "'" +:+ path_str (resolve w target_path)
                    +:+ "' is not in the subpath of '"
                    +:+ path_str (resolve w base_dir) +:+ "'"
               else "Target path " +:+ path_str (resolve w target_path)
                    +:+ " is not within base directory "
                    +:+ path_str (resolve w base_dir)))).
Proof.
  split.
  - intros [rel Hrel]. eexists. by apply (find_below w base_dir target_path rel).
  - apply find_outside.
Qed.

Lemma discover_rejects_non_descendant_witness :
  startswith "/aaab/x" "/aaa" = true
  ∧ ¬ names (resolve example_world (mkPath true ["aaa"]))
      `prefix_of` names (resolve example_world (mkPath true ["aaab"; "x"]))
  ∧ find_yaml_files_in_hierarchy example_world
      (mkPath true ["aaa"]) (mkPath true ["aaab"; "x"])
    = inl (ValueError "'/aaab/x' is not in the subpath of '/aaa'").
Proof.
  assert (¬ names (resolve example_world (mkPath true ["aaa"]))
            `prefix_of` names (resolve example_world (mkPath true ["aaab"; "x"])))
    as Hout by (intros [k Hk]; discriminate Hk).
  split; [reflexivity|]. split; [exact Hout|].
  exact (proj2 (discover_rejects_non_descendant example_world
                  (mkPath true ["aaa"]) (mkPath true ["aaab"; "x"])) Hout).
Defined.

(** C3: for a target that is the base or below it, the files returned
    are exactly those named [*.yaml] or [*.yml] (as written, lower case)
    that lie directly in the base or in a directory whose components
    below the base are the first components of the target's; a file of a
    directory that leaves the target's path at some component is not
    returned. *)
Theorem discover_exact (w : world) (base_dir target_path : Path)
    (rel : list string) :
  names (resolve w target_path) = names (resolve w base_dir) ++ rel →
  ∃ yaml_files,
    find_yaml_files_in_hierarchy w base_dir target_path = inr yaml_files
    ∧ (∀ f, f ∈ yaml_files ↔
         ∃ d rel_d d' file,
           tree_at w (resolve w base_dir) = Some d
           ∧ subdir_at d rel_d d'
           ∧ rel_d `prefix_of` rel
           ∧ file ∈ files d'
           ∧ ((∃ stem, file = stem +:+ ".yaml")
              ∨ (∃ stem, file = stem +:+ ".yml"))
           ∧ f = path_below (resolve w base_dir) (rel_d ++ [file]))
    ∧ (∀ rel_d file,
         ¬ rel_d `prefix_of` rel →
         path_below (resolve w base_dir) (rel_d ++ [file]) ∉ yaml_files).
Proof.
  intros Hrel. eexists. split; [by apply find_below|].
  assert (∀ f, f ∈ os_walk_top w (resolve w base_dir)
                     ≫= yaml_in (resolve w base_dir) rel ↔
     ∃ d rel_d d' file,
       tree_at w (resolve w base_dir) = Some d
       ∧ subdir_at d rel_d d'
       ∧ rel_d `prefix_of` rel
       ∧ file ∈ files d'
       ∧ ((∃ stem, file = stem +:+ ".yaml") ∨ (∃ stem, file = stem +:+ ".yml"))
       ∧ f = path_below (resolve w base_dir) (rel_d ++ [file])) as Hiff.
  { intros f. rewrite list_elem_of_bind. unfold os_walk_top. split.
    - intros (entry & Hf & Hentry).
      destruct (tree_at w _) as [d|]; [|by apply elem_of_nil in Hentry].
      apply os_walk_spec in Hentry as (rel_d & d' & Hat & ->).
      unfold yaml_in in Hf. cbn [fst snd] in Hf.
      change (names (path_below (resolve w base_dir) rel_d))
        with (names (resolve w base_dir) ++ rel_d) in Hf.
      rewrite drop_app_length in Hf.
      destruct (in_hierarchy rel_d rel) eqn:Hin; [|by apply elem_of_nil in Hf].
      apply list_elem_of_fmap in Hf as (file & -> & Hfile).
      apply list_elem_of_filter in Hfile as [Hyaml Hfile].
      exists d, rel_d, d', file.
      split; [done|]. split; [done|]. split; [by apply in_hierarchy_spec|].
      split; [done|]. split; [|apply path_child_below].
      apply is_yaml_name_spec. by apply Is_true_eq_true.
    - intros (d & rel_d & d' & file & -> & Hat & Hpre & Hfile & Hyaml & ->).
      exists (path_below (resolve w base_dir) rel_d, map fst (subdirs d'), files d').
      split.
      + unfold yaml_in. cbn [fst snd].
        change (names (path_below (resolve w base_dir) rel_d))
          with (names (resolve w base_dir) ++ rel_d).
        rewrite drop_app_length.
        apply in_hierarchy_spec in Hpre as ->.
        apply list_elem_of_fmap. exists file. split.
        * symmetry. apply path_child_below.
        * apply list_elem_of_filter. split; [|done].
          apply Is_true_eq_left. by apply is_yaml_name_spec.
      + apply os_walk_spec. by exists rel_d, d'. }
  split; [exact Hiff|].
  intros rel_d file Hout Hin.
  apply Hiff in Hin as (d & rel_d' & d' & file' & _ & _ & Hpre & _ & _ & Heq).
  apply Hout. unfold path_below in Heq. injection Heq as Heq.
  apply app_inv_head in Heq. apply app_inj_tail in Heq as [-> _]. exact Hpre.
Qed.

Lemma discover_exact_witness :
  names (resolve example_world (mkPath true ["aaa"; "a"; "a"; "b"]))
  = names (resolve example_world (mkPath true ["aaa"])) ++ ["a"; "a"; "b"]
  ∧ ∃ yaml_files,
      find_yaml_files_in_hierarchy example_world
        (mkPath true ["aaa"]) (mkPath true ["aaa"; "a"; "a"; "b"])
      = inr yaml_files
      ∧ mkPath true ["aaa"; "a"; "c"; "b"; "config.yaml"] ∉ yaml_files.
Proof.
  split; [reflexivity|].
  destruct (discover_exact example_world (mkPath true ["aaa"])
              (mkPath true ["aaa"; "a"; "a"; "b"]) ["a"; "a"; "b"] eq_refl)
    as (yaml_files & Hfind & _ & Hout).
  exists yaml_files. split; [exact Hfind|].
  apply (Hout ["a"; "c"; "b"] "config.yaml").
  intros [k Hk]. discriminate Hk.
Defined.

Lemma parse_error_aborts_witness :
  let yaml_files := [mkPath true ["aaa"; "config.yaml"];
                     mkPath true ["aaa"; "a"; "config.yaml"];
                     mkPath true ["aaa"; "a"; "c"; "b"; "config.yaml"]] in
  (∃ f, f ∈ yaml_files ∧ ∃ e, load example_world (path_str f) = inl e)
  ∧ ∃ bad e,
      parse_yaml_configs example_world yaml_files
      = inl (Exception ("Failed to parse " +:+ path_str bad +:+ ": " +:+ e))
      ∧ merge_hierarchical_configs example_world
          (mkPath true ["aaa"]) (mkPath true ["aaa"; "a"; "c"; "b"])
        = inl (Exception ("Failed to parse " +:+ path_str bad +:+ ": " +:+ e)).
Proof.
  intros yaml_files.
  assert (∃ f, f ∈ yaml_files ∧ ∃ e, load example_world (path_str f) = inl e)
    as Hbad.
  { exists (mkPath true ["aaa"; "a"; "c"; "b"; "config.yaml"]).
    split; [do 2 right; left|]. eexists. reflexivity. }
  split; [exact Hbad|].
  destruct (parse_error_aborts example_world yaml_files Hbad)
    as (good & bad & rest & e & _ & _ & _ & Hparse & Hmerge).
  exists bad, e. split; [exact Hparse|]. apply Hmerge. reflexivity.
Defined.

Lemma parse_coerces_falsy_witness :
  let yaml_files := [mkPath true ["aaa"; "config.yaml"];
                     mkPath true ["aaa"; "a"; "config.yaml"];
                     mkPath true ["aaa"; "a"; "a"; "b"; "config.yaml"]] in
  let configs := [("/aaa/config.yaml", VDict [("name", VScalar (SStr "base"))]);
                  ("/aaa/a/config.yaml", VDict []);
                  ("/aaa/a/a/b/config.yaml",
                   VDict [("name", VScalar (SStr "leaf"))])] in
  parse_yaml_configs example_world yaml_files = inr configs
  ∧ load example_world "/aaa/a/config.yaml" = inr (VScalar SNone)
  ∧ dict_get "/aaa/a/config.yaml" configs = Some (VDict []).
Proof.
  intros yaml_files configs. split; [reflexivity|]. split; [reflexivity|].
  apply (parse_coerces_falsy example_world yaml_files configs
           (mkPath true ["aaa"; "a"; "config.yaml"]) (VScalar SNone)).
  - reflexivity.
  - right; left.
  - reflexivity.
  - left.
Defined.

Lemma no_files_diagnostic_witness :
  find_yaml_files_in_hierarchy example_world
    (mkPath true ["empty"]) (mkPath true ["empty"; "subdir"]) = inr []
  ∧ merge_hierarchical_configs example_world
      (mkPath true ["empty"]) (mkPath true ["empty"; "subdir"])
    = inr ([], ["No YAML files found in hierarchy from /empty to /empty/subdir"]).
Proof.
  split; [reflexivity|].
  apply (no_files_diagnostic example_world
           (mkPath true ["empty"]) (mkPath true ["empty"; "subdir"])).
  reflexivity.
Defined.

(** ** Depth groups *)

Lemma groups_get_append {A} d d' (x : A) groups :
  groups_get d (groups_append d' x groups)
  = if decide (d' = d) then groups_get d groups ++ [x] else groups_get d groups.
Proof.
  induction groups as [|[d0 l] groups IH]; cbn.
  - destruct (Nat.eqb_spec d' d); by case_decide.
  - destruct (Nat.eqb_spec d0 d') as [->|Hne]; cbn.
    + destruct (Nat.eqb_spec d' d); by case_decide.
    + destruct (Nat.eqb_spec d0 d) as [->|Hne']; [by rewrite decide_False|done].
Qed.

Lemma groups_keys_append {A} d (x : A) groups :
  map fst (groups_append d x groups)
  = if decide (d ∈ map fst groups) then map fst groups
    else map fst groups ++ [d].
Proof.
  induction groups as [|[d0 l] groups IH]; cbn.
  - rewrite decide_False; [done|apply not_elem_of_nil].
  - destruct (Nat.eqb_spec d0 d) as [->|Hne]; cbn.
    + rewrite decide_True; [done|apply elem_of_cons; by left].
    + rewrite IH. destruct (decide (d ∈ map fst groups)) as [Hin|Hout].
      * rewrite decide_True; [done|apply elem_of_cons; by right].
      * rewrite decide_False; [done|].
        intros [?|?]%elem_of_cons; [congruence|done].
Qed.

Lemma foldl_groups_get d configs :
  ∀ groups,
    groups_get d
      (foldl (λ groups fc, groups_append (path_depth fc.1) fc groups)
         groups configs)
    = groups_get d groups ++ at_depth d configs.
Proof.
  induction configs as [|fc configs IH]; intros groups; cbn [foldl].
  - unfold at_depth. by rewrite filter_nil, app_nil_r.
  - rewrite IH, groups_get_append. unfold at_depth. rewrite filter_cons.
    destruct (decide (path_depth fc.1 = d)); [by rewrite <- app_assoc|done].
Qed.

Lemma group_by_depth_get d configs :
  groups_get d (group_by_depth configs) = at_depth d configs.
Proof. unfold group_by_depth. by rewrite foldl_groups_get. Qed.

Lemma foldl_groups_keys configs :
  ∀ groups : list (nat * list (string * value)),
    NoDup (map fst groups) →
    let groups' :=
      foldl (λ groups fc, groups_append (path_depth fc.1) fc groups)
        groups configs in
    NoDup (map fst groups')
    ∧ ∀ d, d ∈ map fst groups'
           ↔ d ∈ map fst groups ∨ ∃ fc, fc ∈ configs ∧ path_depth fc.1 = d.
Proof.
  induction configs as [|fc configs IH]; intros groups Hnd; cbn.
  - split; [done|]. intros d. split; [by left|].
    intros [?|(fc & Hfc & _)]; [done|by apply elem_of_nil in Hfc].
  - destruct (IH (groups_append (path_depth fc.1) fc groups)) as [Hnd' Hkeys].
    { rewrite groups_keys_append. case_decide; [done|].
      apply NoDup_app. split; [done|]. split; [|apply NoDup_singleton].
      intros d Hd ->%list_elem_of_singleton. done. }
    split; [exact Hnd'|]. intros d. rewrite Hkeys, groups_keys_append.
    split.
    + intros [Hd|(fc' & Hfc' & Hdepth)].
      * case_decide; [by left|].
        apply elem_of_app in Hd as [Hd| ->%list_elem_of_singleton]; [by left|].
        right. exists fc. split; [apply elem_of_cons; by left|done].
      * right. exists fc'. split; [apply elem_of_cons; by right|done].
    + intros [Hd|(fc' & [->|Hfc']%elem_of_cons & Hdepth)].
      * left. case_decide; [done|]. apply elem_of_app. by left.
      * left. subst d. case_decide; [done|].
        apply elem_of_app. right. by apply list_elem_of_singleton.
      * right. by exists fc'.
Qed.

Lemma group_by_depth_keys configs :
  NoDup (map fst (group_by_depth configs))
  ∧ ∀ d, d ∈ map fst (group_by_depth configs)
         ↔ ∃ fc, fc ∈ configs ∧ path_depth fc.1 = d.
Proof.
  destruct (foldl_groups_keys configs [] (NoDup_nil_2)) as [Hnd Hkeys].
  split; [exact Hnd|]. intros d. unfold group_by_depth. rewrite Hkeys.
  split; [|by right]. intros [Hd|?]; [by apply elem_of_nil in Hd|done].
Qed.

(** ** [sorted] *)

Lemma insert_sorted_perm n l : insert_sorted n l ≡ₚ n :: l.
Proof.
  induction l as [|m l IH]; cbn; [done|].
  destruct (n <=? m)%nat; [done|]. rewrite IH. apply Permutation_swap.
Qed.

Lemma sorted_perm l : sorted l ≡ₚ l.
Proof.
  induction l as [|n l IH]; cbn; [done|].
  by rewrite insert_sorted_perm, IH.
Qed.

Lemma insert_sorted_sorted n l :
  StronglySorted le l → StronglySorted le (insert_sorted n l).
Proof.
  induction l as [|m l IH]; intros Hl; cbn.
  - repeat constructor.
  - apply StronglySorted_cons in Hl as [Hm Hl].
    destruct (Nat.leb_spec n m) as [Hle|Hgt].
    + apply StronglySorted_cons. split.
      * constructor; [done|]. eapply Forall_impl; [exact Hm|].
        intros k Hk. cbn in Hk. lia.
      * by apply StronglySorted_cons.
    + apply StronglySorted_cons. split; [|by apply IH].
      rewrite insert_sorted_perm. constructor; [lia|done].
Qed.

Lemma sorted_sorted l : StronglySorted le (sorted l).
Proof.
  induction l as [|n l IH]; cbn; [constructor|by apply insert_sorted_sorted].
Qed.

Lemma sorted_strict l : NoDup l → StronglySorted lt (sorted l).
Proof.
  intros Hnd. rewrite <- sorted_perm in Hnd.
  pose proof (sorted_sorted l) as Hs.
  induction (sorted l) as [|n s IH]; [constructor|].
  apply NoDup_cons in Hnd as [Hn Hnd].
  apply StronglySorted_cons in Hs as [Hle Hs].
  apply StronglySorted_cons. split; [|by apply IH].
  rewrite Forall_forall in *. intros m Hm.
  pose proof (Hle m Hm). assert (n ≠ m) by (by intros ->). lia.
Qed.

(** ** The collision check *)

Lemma check_key_tracks depth file_path errs0 st ps key :
  tracks errs0 st ps →
  ∃ st', check_key depth file_path st key = inr st'
         ∧ tracks errs0 st' (scan_step depth ps (file_path, key)).
Proof.
  intros (Hkeys & Hsrc & Herr). unfold check_key, scan_step. cbn [fst snd].
  rewrite Hkeys, Hsrc. destruct (ps.1 !! key) as [existing|] eqn:Hget.
  - rewrite bool_decide_eq_true_2 by (apply elem_of_dom; by eexists).
    eexists. split; [done|]. split; [done|]. split; [done|]. cbn.
    by rewrite Herr, map_app, app_assoc.
  - rewrite bool_decide_eq_false_2 by by apply not_elem_of_dom.
    eexists. split; [done|]. split; [|done]. cbn.
    by rewrite dom_insert_L.
Qed.

Lemma check_keys_tracks depth file_path errs0 keys :
  ∀ st ps,
    tracks errs0 st ps →
    ∃ st', for_each (check_key depth file_path) st keys = inr st'
           ∧ tracks errs0 st'
               (foldl (scan_step depth) ps (map (λ key, (file_path, key)) keys)).
Proof.
  induction keys as [|key keys IH]; intros st ps Htr; [by exists st|].
  destruct (check_key_tracks depth file_path errs0 st ps key Htr)
    as (st1 & Hrun & Htr1).
  cbn [for_each]. rewrite Hrun. cbn [bind]. by apply IH.
Qed.

Lemma check_files_tracks depth errs0 depth_configs :
  Forall (λ fc, isinstance_dict fc.2 = true) depth_configs →
  ∀ st ps,
    tracks errs0 st ps →
    ∃ st', for_each (check_file depth) st depth_configs = inr st'
           ∧ tracks errs0 st'
               (foldl (scan_step depth) ps (file_keys depth_configs)).
Proof.
  induction 1 as [|[file_path config] depth_configs Hdict _ IH];
    intros st ps Htr; [by exists st|].
  destruct config as [s|items|entries]; [done|done|].
  destruct (check_keys_tracks depth file_path errs0 (dict_keys entries) st ps Htr)
    as (st1 & Hrun & Htr1).
  cbn [for_each]. unfold check_file at 1. cbn [keys_of bind ret fst snd].
  rewrite Hrun. cbn [bind].
  unfold file_keys. rewrite bind_cons, foldl_app. by apply IH.
Qed.

Lemma merge_files_run depth_configs :
  Forall (λ fc, isinstance_dict fc.2 = true) depth_configs →
  ∀ merged_config,
    for_each merge_file merged_config depth_configs
    = inr (foldl merge_config merged_config depth_configs).
Proof.
  induction 1 as [|[file_path config] depth_configs Hdict _ IH];
    intros merged_config; [done|].
  destruct config as [s|items|entries]; [done|done|].
  cbn [for_each]. unfold merge_file at 1. cbn [items_of bind ret snd]. apply IH.
Qed.

Lemma process_depth_run depth_groups merged_config errs depth :
  Forall (λ fc, isinstance_dict fc.2 = true) (groups_get depth depth_groups) →
  process_depth depth_groups (merged_config, errs) depth
  = inr (foldl merge_config merged_config (groups_get depth depth_groups),
         errs ++ map collision_message
                   (group_collisions depth (groups_get depth depth_groups))).
Proof.
  intros Hdicts. unfold process_depth. cbn [fst snd].
  destruct (check_files_tracks depth errs _ Hdicts (mkDetector ∅ ∅ errs) (∅, []))
    as (st' & -> & _ & _ & Herr).
  { split; [|split]; cbn; [by rewrite dom_empty_L|done|by rewrite app_nil_r]. }
  cbn [bind]. rewrite merge_files_run by done. cbn [bind]. by rewrite Herr.
Qed.

Lemma process_depths_run depth_groups depths :
  (∀ depth, Forall (λ fc, isinstance_dict fc.2 = true)
              (groups_get depth depth_groups)) →
  ∀ merged_config errs,
    for_each (process_depth depth_groups) (merged_config, errs) depths
    = inr (foldl merge_config merged_config
             (depths ≫= λ depth, groups_get depth depth_groups),
           errs ++ map collision_message
                     (depths ≫= λ depth,
                        group_collisions depth (groups_get depth depth_groups))).
Proof.
  intros Hdicts. induction depths as [|depth depths IH]; intros merged_config errs.
  - cbn. by rewrite app_nil_r.
  - cbn [for_each]. rewrite process_depth_run by done. cbn [bind].
    rewrite IH, !bind_cons, foldl_app, map_app. by rewrite <- app_assoc.
Qed.

(** On files that all hold mappings the function returns, and its
    result is the fold of [_deep_merge] over [merge_order] with the
    diagnostics of [all_collisions]. *)
Lemma merge_configs_by_depth_run configs :
  Forall (λ fc, isinstance_dict fc.2 = true) configs →
  merge_configs_by_depth configs
  = inr (foldl merge_config [] (merge_order configs),
         map collision_message (all_collisions configs)).
Proof.
  intros Hdicts. destruct configs as [|fc configs]; [done|].
  unfold merge_configs_by_depth, merge_order, all_collisions.
  apply (process_depths_run (group_by_depth (fc :: configs))).
  intros depth. rewrite group_by_depth_get. unfold at_depth.
  rewrite Forall_forall in *. intros x [_ Hx]%list_elem_of_filter. by apply Hdicts.
Qed.

(** Every collision of a scan carries the depth of the scan. *)
Lemma scan_depth depth items :
  ∀ ps,
    Forall (λ c, c_depth c = depth) ps.2 →
    Forall (λ c, c_depth c = depth) (foldl (scan_step depth) ps items).2.
Proof.
  induction items as [|it items IH]; intros ps Hps; [done|].
  cbn [foldl]. apply IH. unfold scan_step.
  destruct (ps.1 !! it.2); cbn [snd]; [|done].
  apply Forall_app. split; [done|]. by repeat constructor.
Qed.

(** The source recorded for a key is the first file that brought it,
    and every later file with the key is reported against that one. *)
Lemma scan_key depth key items :
  ∀ sources found,
    filter (λ c, c_key c = key)
      (foldl (scan_step depth) (sources, found) items).2
    = filter (λ c, c_key c = key) found
      ++ match sources !! key with
         | Some first => map (mkCollision depth key first)
                           (files_with_key key items)
         | None => blamed depth key (files_with_key key items)
         end.
Proof.
  induction items as [|[file_path key'] items IH]; intros sources found.
  - cbn. destruct (sources !! key); by rewrite app_nil_r.
  - cbn [foldl]. unfold scan_step at 2. cbn [fst snd].
    unfold files_with_key. rewrite filter_cons. cbn [snd].
    destruct (sources !! key') as [existing|] eqn:Hget.
    + rewrite IH, filter_app, filter_cons, filter_nil. cbn [c_key].
      destruct (decide (key' = key)) as [->|Hne].
      * rewrite Hget. cbn [map fst]. by rewrite <- app_assoc.
      * by rewrite app_nil_r.
    + rewrite IH. destruct (decide (key' = key)) as [->|Hne].
      * by rewrite lookup_insert_eq, Hget.
      * by rewrite lookup_insert_ne.
Qed.

Lemma files_with_key_one key file_path keys :
  NoDup keys →
  files_with_key key (map (λ k, (file_path, k)) keys)
  = if decide (key ∈ keys) then [file_path] else [].
Proof.
  unfold files_with_key. induction keys as [|k keys IH]; intros Hnd.
  - rewrite decide_False; [done|apply not_elem_of_nil].
  - apply NoDup_cons in Hnd as [Hk Hnd]. cbn [map]. rewrite filter_cons.
    cbn [snd]. destruct (decide (k = key)) as [->|Hne]; cbn [map fst];
      rewrite IH by done.
    + rewrite decide_False by done.
      rewrite decide_True; [done|apply elem_of_cons; by left].
    + destruct (decide (key ∈ keys)) as [Hin|Hout].
      * rewrite decide_True; [done|apply elem_of_cons; by right].
      * rewrite decide_False; [done|].
        intros [?|?]%elem_of_cons; [congruence|done].
Qed.

Lemma dict_mem_keys {V} key (d : list (string * V)) :
  dict_mem key d = true ↔ key ∈ dict_keys d.
Proof.
  unfold dict_mem, dict_keys. destruct (dict_get key d) eqn:Hget.
  - split; [intros _|done]. destruct (decide (key ∈ map fst d)); [done|].
    apply dict_get_None in n. congruence.
  - split; [done|]. intros Hin. by apply dict_get_None in Hget.
Qed.

Lemma files_with_key_defining key depth_configs :
  Forall (λ fc, wf_value fc.2 = true) depth_configs →
  files_with_key key (file_keys depth_configs)
  = map fst (defining key depth_configs).
Proof.
  induction 1 as [|[file_path config] depth_configs Hwf _ IH]; [done|].
  unfold file_keys, defining. rewrite bind_cons, filter_cons. cbn [fst snd].
  unfold files_with_key in *. rewrite filter_app, map_app.
  unfold file_keys, defining in IH. rewrite IH.
  fold (files_with_key key
          (map (λ k, (file_path, k)) (dict_keys (entries_of config)))).
  rewrite files_with_key_one.
  - destruct (decide (key ∈ dict_keys (entries_of config))) as [Hin|Hout].
    + rewrite decide_True; [done|]. apply Is_true_eq_left. by apply dict_mem_keys.
    + rewrite decide_False; [done|]. intros Hmem%Is_true_eq_true.
      by apply dict_mem_keys in Hmem.
  - destruct config as [s|items|entries]; cbn; [constructor|constructor|].
    by apply wf_dict_NoDup.
Qed.

Lemma group_collisions_key depth key depth_configs :
  Forall (λ fc, wf_value fc.2 = true) depth_configs →
  filter (λ c, c_key c = key) (group_collisions depth depth_configs)
  = blamed depth key (map fst (defining key depth_configs)).
Proof.
  intros Hwf. unfold group_collisions.
  rewrite scan_key, lookup_empty, filter_nil. cbn [app].
  by rewrite files_with_key_defining.
Qed.

Lemma filter_depth_key depth key d (l : list collision) :
  Forall (λ c, c_depth c = d) l →
  filter (λ c, c_depth c = depth ∧ c_key c = key) l
  = if decide (d = depth) then filter (λ c, c_key c = key) l else [].
Proof.
  induction 1 as [|c l Hc _ IH].
  - by case_decide.
  - rewrite !filter_cons, IH. destruct (decide (d = depth)) as [->|Hne].
    + destruct (decide (c_key c = key)).
      * by rewrite decide_True.
      * rewrite decide_False; [done|]. by intros [_ ?].
    + rewrite decide_False; [done|]. intros [? _]. congruence.
Qed.

Lemma filter_depths depth key (G : nat → list collision) depths :
  (∀ d, Forall (λ c, c_depth c = d) (G d)) →
  NoDup depths →
  filter (λ c, c_depth c = depth ∧ c_key c = key) (depths ≫= G)
  = if decide (depth ∈ depths) then filter (λ c, c_key c = key) (G depth)
    else [].
Proof.
  intros HG. induction depths as [|d depths IH]; intros Hnd.
  - rewrite decide_False; [done|apply not_elem_of_nil].
  - apply NoDup_cons in Hnd as [Hd Hnd].
    rewrite bind_cons, filter_app, (filter_depth_key depth key d) by done.
    rewrite IH by done. destruct (decide (d = depth)) as [->|Hne].
    + rewrite decide_False by done. rewrite app_nil_r.
      rewrite decide_True; [done|apply elem_of_cons; by left].
    + cbn [app]. destruct (decide (depth ∈ depths)) as [Hin|Hout].
      * rewrite decide_True; [done|apply elem_of_cons; by right].
      * rewrite decide_False; [done|].
        intros [?|?]%elem_of_cons; [congruence|done].
Qed.

(** The collisions reported for one key at one depth. *)
Lemma all_collisions_key configs depth key :
  Forall (λ fc, wf_value fc.2 = true) configs →
  filter (λ c, c_depth c = depth ∧ c_key c = key) (all_collisions configs)
  = blamed depth key (map fst (defining key (at_depth depth configs))).
Proof.
  intros Hwf. unfold all_collisions.
  destruct (group_by_depth_keys configs) as [Hnd Hkeys].
  rewrite (filter_depths depth key
             (λ d, group_collisions d (groups_get d (group_by_depth configs)))).
  - rewrite group_by_depth_get.
    assert (Forall (λ fc, wf_value fc.2 = true) (at_depth depth configs)) as Hwf'.
    { rewrite Forall_forall in *. intros x [_ Hx]%list_elem_of_filter. by apply Hwf. }
    case_decide as Hin; [by apply group_collisions_key|].
    destruct (at_depth depth configs) as [|fc rest] eqn:Hat; [done|].
    exfalso. apply Hin. rewrite sorted_perm. apply Hkeys. exists fc.
    assert (fc ∈ at_depth depth configs) as [Hd Hfc]%list_elem_of_filter
      by (rewrite Hat; left).
    done.
  - intros d. by apply scan_depth.
  - rewrite sorted_perm. exact Hnd.
Qed.

(** C4: when the files of one depth that define the key [key] are, in
    traversal order, [f1], [f2] and [f3], exactly two collisions are
    reported for [key] at that depth, [f2] against [f1] and [f3] against
    [f1]: the source recorded at the first registration is never
    replaced. *)
Theorem three_way_collision (configs : dict) (depth : nat) (key : string)
    (f1 f2 f3 : string) :
  Forall (λ fc, isinstance_dict fc.2 = true ∧ wf_value fc.2 = true) configs →
  map fst (defining key (at_depth depth configs)) = [f1; f2; f3] →
  merge_configs_by_depth configs
  = inr (foldl merge_config [] (merge_order configs),
         map collision_message (all_collisions configs))
  ∧ filter (λ c, c_depth c = depth ∧ c_key c = key) (all_collisions configs)
    = [mkCollision depth key f1 f2; mkCollision depth key f1 f3].
Proof.
  intros Hconfigs Hthree. split.
  - apply merge_configs_by_depth_run.
    eapply Forall_impl; [exact Hconfigs|]. by intros fc [? _].
  - rewrite all_collisions_key, Hthree; [done|].
    eapply Forall_impl; [exact Hconfigs|]. by intros fc [_ ?].
Qed.

Lemma three_way_collision_witness :
  let configs :=
    [("/base/config.yaml", VDict [("name", VScalar (SStr "base"))]);
     ("/base/level1/config1.yaml", VDict [("key", VScalar (SStr "value1"))]);
     ("/base/level1/config2.yaml", VDict [("key", VScalar (SStr "value2"))]);
     ("/base/level1/other.yaml", VDict [("name", VScalar (SStr "other"))]);
     ("/base/level1/config3.yaml", VDict [("key", VScalar (SStr "value3"))])] in
  merge_configs_by_depth configs
  = inr ([("name", VScalar (SStr "other")); ("key", VScalar (SStr "value3"))],
         ["Key collision at depth 4: 'key' found in both /base/level1/config1.yaml and /base/level1/config2.yaml";
          "Key collision at depth 4: 'key' found in both /base/level1/config1.yaml and /base/level1/config3.yaml"])
  ∧ filter (λ c, c_depth c = 4 ∧ c_key c = "key") (all_collisions configs)
    = [mkCollision 4 "key" "/base/level1/config1.yaml" "/base/level1/config2.yaml";
       mkCollision 4 "key" "/base/level1/config1.yaml" "/base/level1/config3.yaml"].
Proof.
  intros configs. split; [vm_compute; reflexivity|].
  apply (three_way_collision configs 4 "key").
  - repeat constructor.
  - reflexivity.
Defined.

(** ** The order of the fold *)

Lemma merge_order_eq configs :
  merge_order configs
  = sorted (map fst (group_by_depth configs)) ≫= λ d, at_depth d configs.
Proof.
  unfold merge_order. apply list_bind_ext; [|done].
  intros d. apply group_by_depth_get.
Qed.




Lemma bind_at_depth_sorted configs depths :
  StronglySorted lt depths →
  StronglySorted (λ x y : string * value, (path_depth x.1 ≤ path_depth y.1)%nat)
    (depths ≫= λ d, at_depth d configs).
Proof.
  induction depths as [|d depths IH]; intros Hs; [constructor|].
  apply StronglySorted_cons in Hs as [Hlt Hs].
  rewrite bind_cons. apply StronglySorted_app. split; [|split].
  - intros x y [Hx _]%list_elem_of_filter
      (d' & [Hy _]%list_elem_of_filter & Hd')%list_elem_of_bind.
    rewrite Forall_forall in Hlt. specialize (Hlt d' Hd'). cbn beta in *. lia.
  - assert (Forall (λ x : string * value, path_depth x.1 = d) (at_depth d configs))
      as Hall.
    { rewrite Forall_forall. by intros x [Hx _]%list_elem_of_filter. }
    induction Hall as [|x l Hx Hl IHl]; constructor; [exact IHl|].
    eapply Forall_impl; [exact Hl|]. intros y Hy. cbn beta in *.
    rewrite Hx, Hy. lia.
  - by apply IH.
Qed.

(** The files are merged by ascending depth. *)
Lemma merge_order_sorted configs :
  StronglySorted (λ x y : string * value, (path_depth x.1 ≤ path_depth y.1)%nat)
    (merge_order configs).
Proof.
  rewrite merge_order_eq. apply bind_at_depth_sorted, sorted_strict.
  apply group_by_depth_keys.
Qed.

(** ** Scenarios *)

Lemma bind_nil_list {A B} (f : A → list B) : [] ≫= f = [].
Proof. reflexivity. Qed.

Lemma merged_value_not_dict oa vb :
  isinstance_dict vb = false → merged_value oa vb = vb.
Proof. intros Hvb. destruct oa as [[]|]; by destruct vb. Qed.






(** ** [_deep_merge] on a heap *)

Lemma Forall2_Forall_impl {A B} (P Q : A → B → Prop) l k :
  Forall2 P l k →
  Forall (λ y, ∀ x, P x y → Q x y) k →
  Forall2 Q l k.
Proof.
  induction 1 as [|x y l k Hxy _ IH]; intros Hk; [constructor|].
  apply Forall_cons in Hk as [Hy Hk]. constructor; [by apply Hy|by apply IH].
Qed.

(** A value seen in a view is seen in every larger view. *)
Lemma denotes_mono σ τ v :
  view_le σ τ → ∀ l, denotes σ l v → denotes τ l v.
Proof.
  intros Hle. induction v as [s|vs IH|kvs IH] using value_ind; intros l Hden;
    inversion Hden as [? ? Hl|? ls ? Hl Hall|? es ? Hl Hall]; subst.
  - constructor. by apply Hle.
  - econstructor; [by apply Hle|]. by eapply Forall2_Forall_impl.
  - econstructor; [by apply Hle|].
    eapply Forall2_Forall_impl; [exact Hall|].
    eapply Forall_impl; [exact IH|]. intros kv Hkv e [Hk He]. split; [done|].
    by apply Hkv.
Qed.

Lemma entries_mono σ τ (es : list (string * loc)) (kvs : dict) :
  view_le σ τ →
  Forall2 (λ e kv, e.1 = kv.1 ∧ denotes σ e.2 kv.2) es kvs →
  Forall2 (λ e kv, e.1 = kv.1 ∧ denotes τ e.2 kv.2) es kvs.
Proof.
  intros Hle Hall. eapply Forall2_impl; [exact Hall|].
  intros e kv [Hk He]. split; [done|]. by eapply denotes_mono.
Qed.

(** Entries that correspond answer [get] alike and stay in
    correspondence under [set]. *)
Lemma entries_get σ key (es : list (string * loc)) (kvs : dict) :
  Forall2 (λ e kv, e.1 = kv.1 ∧ denotes σ e.2 kv.2) es kvs →
  match dict_get key es, dict_get key kvs with
  | Some l, Some v => denotes σ l v
  | None, None => True
  | _, _ => False
  end.
Proof.
  induction 1 as [|[k l] [k' v] es kvs [Hk Hl] _ IH]; [done|].
  cbn in Hk, Hl. subst k'. cbn. by destruct (String.eqb k key).
Qed.

Lemma entries_set σ key l v (es : list (string * loc)) (kvs : dict) :
  Forall2 (λ e kv, e.1 = kv.1 ∧ denotes σ e.2 kv.2) es kvs →
  denotes σ l v →
  Forall2 (λ e kv, e.1 = kv.1 ∧ denotes σ e.2 kv.2)
    (dict_set key l es) (dict_set key v kvs).
Proof.
  intros Hall Hl. induction Hall as [|[k l'] [k' v'] es kvs [Hk Hl'] Hall IH].
  - by repeat constructor.
  - cbn in Hk, Hl'. subst k'. cbn.
    destruct (String.eqb k key); constructor; done.
Qed.

Lemma denotes_is_dict σ h l v :
  view_le σ (view_of h) → denotes σ l v →
  is_dict_at h l = isinstance_dict v.
Proof.
  intros Hle Hden. unfold is_dict_at.
  inversion Hden as [? ? Hl|? ? ? Hl _|? ? ? Hl _]; subst;
    apply Hle in Hl; unfold view_of in Hl; by rewrite Hl.
Qed.

Lemma preserved_length h h' : preserved h h' → length h ≤ length h'.
Proof.
  intros Hpres. destruct (decide (length h ≤ length h')) as [|Hgt]; [done|].
  destruct (lookup_lt_is_Some_2 h (length h')) as [o Ho]; [lia|].
  apply Hpres in Ho. apply lookup_lt_Some in Ho. lia.
Qed.

Lemma preserved_trans h1 h2 h3 :
  preserved h1 h2 → preserved h2 h3 → preserved h1 h3.
Proof. intros H12 H23 l o Hl. by apply H23, H12. Qed.

Lemma preserved_alloc h o : preserved h (h ++ [o]).
Proof. intros l o' Hl. by apply lookup_app_l_Some. Qed.

(** Writing at an address that [h] does not have preserves [h]. *)
Lemma preserved_store h h' result o :
  preserved h h' → length h ≤ result →
  preserved h (<[result := o]> h').
Proof.
  intros Hpres Hres l o' Hl. rewrite list_lookup_insert_ne.
  - by apply Hpres.
  - apply lookup_lt_Some in Hl. lia.
Qed.

Lemma view_le_grown σ h h' :
  view_le σ (view_of h) → preserved h h' →
  view_le (grown σ h h') (view_of h').
Proof.
  intros Hle Hpres l o. unfold grown, view_of.
  case_decide; [|done]. intros Hl. by apply Hpres, Hle.
Qed.

Lemma view_le_around_grown result σ h h' :
  view_le (around result σ h h') (grown σ h h').
Proof. intros l o. unfold around. by case_decide. Qed.

Lemma view_le_around σ h h' :
  view_le σ (view_of h) → view_le σ (around (length h) σ h h').
Proof.
  intros Hle l o Hl. unfold around, grown.
  pose proof (Hle l o Hl) as Hh. apply lookup_lt_Some in Hh.
  rewrite decide_False by lia. by rewrite decide_True by lia.
Qed.

(** The view around [result] only grows when the store is preserved,
    and does not see what is written at [result]. *)
Lemma view_le_around_step result σ h h1 h2 o :
  length h ≤ length h1 →
  preserved h1 h2 →
  view_le (around result σ h h1) (around result σ h (<[result := o]> h2)).
Proof.
  intros Hlen Hpres l o'. unfold around, grown.
  case_decide as Hr; [done|]. case_decide as Hl; [done|].
  intros Hl1. rewrite list_lookup_insert_ne by done. by apply Hpres.
Qed.

Lemma view_le_grown_around σ h0 hc h1 o :
  length h0 < length hc →
  preserved hc h1 →
  view_le (grown (around (length h0) σ h0 hc) hc h1)
          (around (length h0) σ h0 (<[length h0 := o]> h1)).
Proof.
  intros Hlen Hpres l o'. unfold grown at 1. case_decide as Hl.
  - apply view_le_around_step; [lia|done].
  - intros Hl1. unfold around, grown.
    rewrite decide_False by lia. rewrite decide_False by lia.
    by rewrite list_lookup_insert_ne by lia.
Qed.

(** Writing an entry of the mapping under construction keeps the
    invariant of the loop. *)
Lemma loop_invariant_store σ h0 hc h1 (res : list (string * loc)) (R : dict)
    key m vm :
  preserved h0 hc →
  hc !! length h0 = Some (ODict res) →
  Forall2 (λ e kv, e.1 = kv.1 ∧ denotes (around (length h0) σ h0 hc) e.2 kv.2)
    res R →
  preserved hc h1 →
  let h2 := <[length h0 := ODict (dict_set key m res)]> h1 in
  denotes (around (length h0) σ h0 h2) m vm →
  preserved h0 h2
  ∧ h2 !! length h0 = Some (ODict (dict_set key m res))
  ∧ Forall2 (λ e kv, e.1 = kv.1 ∧ denotes (around (length h0) σ h0 h2) e.2 kv.2)
      (dict_set key m res) (dict_set key vm R).
Proof.
  intros Hpres Hres Hent Hpres1 h2 Hm.
  pose proof (preserved_length _ _ Hpres) as Hlen.
  pose proof (preserved_length _ _ Hpres1) as Hlen1.
  pose proof (lookup_lt_Some _ _ _ Hres) as Hlt.
  split; [|split].
  - apply preserved_store; [by eapply preserved_trans|done].
  - apply list_lookup_insert_eq. lia.
  - apply entries_set; [|done].
    eapply entries_mono; [|exact Hent]. by apply view_le_around_step.
Qed.

Lemma height_entries (B : dict) n :
  height (VDict B) ≤ S n → Forall (λ kv, height kv.2 ≤ n) B.
Proof.
  cbn [height]. induction B as [|kv B IH]; intros Hh; [constructor|].
  cbn [foldr] in Hh. constructor; [lia|]. apply IH. lia.
Qed.

(** The loop of a call on the store [h0], for the entries of an
    override whose nested mappings merge as [merges_in] says. *)
Lemma merge_items_spec fuel σ h0 (oitems : list (string * loc)) (items : dict) :
  view_le σ (view_of h0) →
  Forall2 (λ e kv, e.1 = kv.1 ∧ denotes σ e.2 kv.2) oitems items →
  Forall (λ kv, merges_in kv.2 ∧ height kv.2 ≤ fuel) items →
  ∀ hc (res : list (string * loc)) (R : dict),
    preserved h0 hc →
    hc !! length h0 = Some (ODict res) →
    Forall2 (λ e kv, e.1 = kv.1 ∧ denotes (around (length h0) σ h0 hc) e.2 kv.2)
      res R →
    ∃ h' res',
      merge_items (deep_merge_heap fuel) (length h0) hc oitems = Some h'
      ∧ preserved h0 h'
      ∧ h' !! length h0 = Some (ODict res')
      ∧ Forall2 (λ e kv, e.1 = kv.1
                         ∧ denotes (around (length h0) σ h0 h') e.2 kv.2)
          res' (foldl merge_step R items).
Proof.
  intros Hle Hitems.
  induction Hitems as [|[key vloc] [key' vb] oitems items [Hk Hv] _ IH];
    intros HP hc res R Hpres Hres Hent.
  { by exists hc, res. }
  cbn in Hk, Hv. subst key'. apply Forall_cons in HP as [[HPv Hht] HP].
  cbn [snd] in HPv, Hht. specialize (IH HP).
  pose proof (preserved_length _ _ Hpres) as Hlen.
  pose proof (lookup_lt_Some _ _ _ Hres) as Hlt.
  assert (view_le (around (length h0) σ h0 hc) (view_of hc)) as Hle_hc.
  { intros l o Hl. apply view_le_around_grown in Hl.
    by eapply view_le_grown. }
  assert (denotes (around (length h0) σ h0 hc) vloc vb) as Hvloc.
  { eapply denotes_mono; [|exact Hv]. by apply view_le_around. }
  assert (∀ h1, preserved hc h1 →
            ∃ h' res',
              merge_items (deep_merge_heap fuel) (length h0)
                (<[length h0 := ODict (dict_set key vloc res)]> h1) oitems
              = Some h'
              ∧ preserved h0 h'
              ∧ h' !! length h0 = Some (ODict res')
              ∧ Forall2 (λ e kv, e.1 = kv.1
                                 ∧ denotes (around (length h0) σ h0 h') e.2 kv.2)
                  res' (foldl merge_step (dict_set key vb R) items)) as Hstore.
  { intros h1 Hpres1.
    destruct (loop_invariant_store σ h0 hc h1 res R key vloc vb
                Hpres Hres Hent Hpres1) as (Hp2 & Hr2 & He2).
    - eapply denotes_mono; [|exact Hv]. by apply view_le_around.
    - exact (IH _ _ _ Hp2 Hr2 He2). }
  cbn [merge_items foldl]. rewrite Hres, merge_step_set.
  pose proof (entries_get _ key res R Hent) as Hget.
  destruct (dict_get key res) as [sub|], (dict_get key R) as [va|];
    [|done|done|cbn [merged_value]; apply (Hstore hc); by intros ???].
  rewrite (denotes_is_dict _ hc sub va Hle_hc Hget).
  rewrite (denotes_is_dict _ hc vloc vb Hle_hc Hvloc).
  destruct va as [sa|la|a], vb as [sb|lb|b];
    cbn [isinstance_dict andb merged_value];
    try (apply (Hstore hc); by intros ???).
  destruct (HPv b eq_refl fuel hc (around (length h0) σ h0 hc) sub vloc a
              Hht Hle_hc Hget Hvloc) as (h1 & Hrun & Hpres1 & Hmerged).
  rewrite Hrun, (Hpres1 _ _ Hres).
  destruct (loop_invariant_store σ h0 hc h1 res R key (length hc)
              (VDict (_deep_merge a b)) Hpres Hres Hent Hpres1)
    as (Hp2 & Hr2 & He2).
  - eapply denotes_mono; [|exact Hmerged]. by apply view_le_grown_around.
  - exact (IH _ _ _ Hp2 Hr2 He2).
Qed.

(** Every call on mappings that denote values returns, given fuel for
    the depth of the override. *)
Lemma deep_merge_heap_spec v : merges_in v.
Proof.
  induction v as [s|vs _|B IH] using value_ind; intros B' HB; [done|done|].
  injection HB as <-. intros fuel h σ base override A Hfuel Hle Hbase Hover.
  destruct fuel as [|fuel]; [cbn in Hfuel; lia|].
  inversion Hbase as [| |? bes ? Hb Hbes]; subst.
  inversion Hover as [| |? oitems ? Ho Hoitems]; subst.
  cbn [deep_merge_heap].
  pose proof (Hle _ _ Hb) as Hb'. pose proof (Hle _ _ Ho) as Ho'.
  unfold view_of in Hb', Ho'. rewrite Hb', Ho'.
  destruct (merge_items_spec fuel σ h oitems B Hle Hoitems) with
    (hc := h ++ [ODict bes]) (res := bes) (R := A)
    as (h' & res' & Hrun & Hpres & Hres & Hent).
  - apply Forall_forall. intros kv Hkv. split.
    + rewrite Forall_forall in IH. by apply IH.
    + pose proof (height_entries B fuel Hfuel) as Hh.
      rewrite Forall_forall in Hh. by apply Hh.
  - apply preserved_alloc.
  - by apply list_lookup_middle.
  - eapply entries_mono; [|exact Hbes]. by apply view_le_around.
  - rewrite Hrun. exists h'. split; [done|]. split; [done|].
    econstructor.
    + unfold grown. rewrite decide_False by lia. exact Hres.
    + rewrite _deep_merge_unfold.
      eapply entries_mono; [|exact Hent]. apply view_le_around_grown.
Qed.

(** A call that returns has changed no object that existed, whatever
    the store holds, cycles included. *)
Lemma merge_items_preserved (rec : heap → loc → loc → option (heap * loc)) h0 :
  (∀ h b o h' r, rec h b o = Some (h', r) → preserved h h') →
  ∀ items hc h',
    preserved h0 hc →
    merge_items rec (length h0) hc items = Some h' →
    preserved h0 h'.
Proof.
  intros Hrec. induction items as [|[key value] items IH]; intros hc h' Hpres Hrun.
  - cbn in Hrun. by injection Hrun as <-.
  - cbn [merge_items] in Hrun.
    destruct (hc !! length h0) as [[| |entries]|]; [done|done| |done].
    assert (∀ h1 o, preserved hc h1 →
              preserved h0 (<[length h0 := o]> h1)) as Hstore.
    { intros h1 o Hpres1. apply preserved_store; [|done].
      by eapply preserved_trans. }
    destruct (dict_get key entries) as [sub|];
      [|eapply IH; [|exact Hrun]; apply Hstore; by intros ???].
    destruct (is_dict_at hc sub && is_dict_at hc value);
      [|eapply IH; [|exact Hrun]; apply Hstore; by intros ???].
    destruct (rec hc sub value) as [[h1 merged]|] eqn:Hcall; [|done].
    destruct (h1 !! length h0) as [[| |entries1]|]; [done|done| |done].
    eapply IH; [|exact Hrun]. apply Hstore. by eapply Hrec.
Qed.

Lemma deep_merge_heap_preserved fuel :
  ∀ h base override h' result,
    deep_merge_heap fuel h base override = Some (h', result) →
    result = length h ∧ preserved h h'.
Proof.
  induction fuel as [|fuel IH]; intros h base override h' result Hrun; [done|].
  cbn [deep_merge_heap] in Hrun.
  destruct (h !! base) as [[| |base_entries]|]; [done|done| |done].
  destruct (h !! override) as [[| |items]|]; [done|done| |done].
  destruct (merge_items _ _ _ _) as [h1|] eqn:Hloop; [|done].
  injection Hrun as <- <-. split; [done|].
  eapply merge_items_preserved; [|apply preserved_alloc|exact Hloop].
  intros h2 b o h3 r Hcall. by apply IH in Hcall as [_ ?].
Qed.

(** The copy is shallow: the result's entry for ["a"] is the very
    object, at address 1, that the base holds under ["a"]. *)
Example deep_merge_heap_shares :
  deep_merge_heap 1
    [OScalar (SInt 1); ODict [("x", 0)]; ODict [("a", 1)];
     OScalar (SInt 2); ODict [("b", 3)]] 2 4
  = Some ([OScalar (SInt 1); ODict [("x", 0)]; ODict [("a", 1)];
           OScalar (SInt 2); ODict [("b", 3)];
           ODict [("a", 1); ("b", 3)]], 5).
Proof. reflexivity. Qed.

(** C9: a call that returns gives a new address and leaves every object
    that existed before the call as it was; and a call on two mappings
    that hold values does return, its result being the merge of the two
    values, while the base and the override, and all that can be reached
    from them, have after the call the values they had before it,
    although only the top level of the base is copied. *)
Theorem deep_merge_leaves_inputs :
  (∀ fuel (h : heap) (base override : loc) h' result,
     deep_merge_heap fuel h base override = Some (h', result) →
     h !! result = None ∧ preserved h h')
  ∧ (∀ (h : heap) (base override : loc) (A B : dict) fuel,
       denotes (view_of h) base (VDict A) →
       denotes (view_of h) override (VDict B) →
       height (VDict B) ≤ fuel →
       ∃ h' result,
         deep_merge_heap fuel h base override = Some (h', result)
         ∧ h !! result = None
         ∧ preserved h h'
         ∧ denotes (view_of h') result (VDict (_deep_merge A B))
         ∧ denotes (view_of h') base (VDict A)
         ∧ denotes (view_of h') override (VDict B)).
Proof.
  split.
  { intros fuel h base override h' result Hrun.
    apply deep_merge_heap_preserved in Hrun as [-> Hpres].
    split; [by apply lookup_ge_None_2|done]. }
  intros h base override A B fuel Hbase Hover Hfuel.
  destruct (deep_merge_heap_spec (VDict B) B eq_refl fuel h (view_of h)
              base override A Hfuel) as (h' & Hrun & Hpres & Hres);
    [by intros ???|done|done|].
  assert (view_le (view_of h) (view_of h')) as Hle by exact Hpres.
  exists h', (length h). split; [done|]. split; [by apply lookup_ge_None_2|].
  split; [done|]. split; [|split].
  - eapply denotes_mono; [|exact Hres]. apply view_le_grown; [by intros ???|done].
  - by eapply denotes_mono.
  - by eapply denotes_mono.
Qed.

Lemma deep_merge_leaves_inputs_witness :
  let h := [OScalar (SInt 1); ODict [("x", 0)]; ODict [("a", 1)];
            OScalar (SInt 2); ODict [("y", 3)]; ODict [("a", 4)]] in
  let A := [("a", VDict [("x", VScalar (SInt 1))])] in
  let B := [("a", VDict [("y", VScalar (SInt 2))])] in
  denotes (view_of h) 2 (VDict A)
  ∧ denotes (view_of h) 5 (VDict B)
  ∧ ∃ h' result,
      deep_merge_heap 2 h 2 5 = Some (h', result)
      ∧ h !! result = None
      ∧ preserved h h'
      ∧ denotes (view_of h') result (VDict (_deep_merge A B))
      ∧ denotes (view_of h') 2 (VDict A)
      ∧ denotes (view_of h') 5 (VDict B).
Proof.
  intros h A B.
  assert (denotes (view_of h) 2 (VDict A)) as HA.
  { econstructor; [reflexivity|]. repeat constructor.
    econstructor; [reflexivity|]. repeat constructor. }
  assert (denotes (view_of h) 5 (VDict B)) as HB.
  { econstructor; [reflexivity|]. repeat constructor.
    econstructor; [reflexivity|]. repeat constructor. }
  split; [exact HA|]. split; [exact HB|].
  apply (proj2 deep_merge_leaves_inputs h 2 5 A B 2 HA HB). vm_compute. lia.
Defined.

(** * Further properties of the module *)

(** ** Discovery at the edges *)

Lemma bind_all_nil {A B} (f : A → list B) (l : list A) :
  (∀ x, x ∈ l → f x = []) → l ≫= f = [].
Proof.
  induction l as [|x l IH]; intros Hnil; [done|].
  rewrite bind_cons, Hnil by (apply elem_of_cons; by left).
  apply IH. intros y Hy. apply Hnil. apply elem_of_cons. by right.
Qed.

Lemma in_hierarchy_nil_r root_parts :
  in_hierarchy root_parts [] = true ↔ root_parts = [].
Proof.
  rewrite in_hierarchy_spec. split; [apply prefix_nil_inv|].
  intros ->. apply prefix_nil.
Qed.

(** X1: when the target resolves to the base itself, the result is the
    list of the YAML files that lie directly in the base, in the order
    of the directory listing, and nothing from any sub-directory; a
    base that is not a directory gives the empty list. *)
Theorem find_target_is_base (w : world) (base_dir target_path : Path) :
  resolve_names w target_path = resolve_names w base_dir →
  find_yaml_files_in_hierarchy w base_dir target_path
  = inr match tree_at w (resolve w base_dir) with
        | Some d => map (path_child (resolve w base_dir))
                      (filter is_yaml_name (files d))
        | None => []
        end.
Proof.
  intros Hsame.
  rewrite (find_below w base_dir target_path []) by (by rewrite app_nil_r).
  f_equal. unfold os_walk_top.
  destruct (tree_at w (resolve w base_dir)) as [[subs fs]|]; [|done].
  rewrite os_walk_unfold, bind_cons, bind_all_nil.
  - rewrite app_nil_r. unfold yaml_in. cbn [fst snd files].
    rewrite drop_all. done.
  - intros entry ([name sub] & Hentry & Hsub)%list_elem_of_bind.
    apply os_walk_spec in Hentry as (rel & d' & _ & ->).
    unfold yaml_in. cbn [fst snd]. rewrite path_below_child.
    change (names (path_below (resolve w base_dir) (name :: rel)))
      with (names (resolve w base_dir) ++ name :: rel).
    rewrite drop_app_length.
    destruct (in_hierarchy (name :: rel) []) eqn:Hin; [|done].
    by apply in_hierarchy_nil_r in Hin.
Qed.

Lemma find_target_is_base_witness :
  resolve_names example_world (mkPath true ["aaa"])
  = resolve_names example_world (mkPath true ["aaa"])
  ∧ find_yaml_files_in_hierarchy example_world
      (mkPath true ["aaa"]) (mkPath true ["aaa"])
    = inr [mkPath true ["aaa"; "config.yaml"]].
Proof.
  split; [reflexivity|].
  exact (find_target_is_base example_world
           (mkPath true ["aaa"]) (mkPath true ["aaa"]) eq_refl).
Defined.

(** X2: a base that does not exist, or is not a directory, is no error:
    for a target at or below it the merge returns the empty mapping
    with the single "No YAML files found" diagnostic. *)
Theorem missing_base_is_no_error (w : world) (base_dir target_path : Path) :
  tree_at w (resolve w base_dir) = None →
  names (resolve w base_dir) `prefix_of` names (resolve w target_path) →
  find_yaml_files_in_hierarchy w base_dir target_path = inr []
  ∧ merge_hierarchical_configs w base_dir target_path
    = inr ([], ["No YAML files found in hierarchy from " +:+ path_str base_dir
                +:+ " to " +:+ path_str target_path]).
Proof.
  intros Hnone [rel Hrel].
  assert (find_yaml_files_in_hierarchy w base_dir target_path = inr []) as Hfind.
  { rewrite (find_below w base_dir target_path rel Hrel).
    unfold os_walk_top. by rewrite Hnone. }
  split; [exact Hfind|]. unfold merge_hierarchical_configs. by rewrite Hfind.
Qed.

Lemma missing_base_is_no_error_witness :
  tree_at example_world (resolve example_world (mkPath true ["nowhere"])) = None
  ∧ merge_hierarchical_configs example_world
      (mkPath true ["nowhere"]) (mkPath true ["nowhere"; "x"])
    = inr ([], ["No YAML files found in hierarchy from /nowhere to /nowhere/x"]).
Proof.
  split; [reflexivity|].
  apply (missing_base_is_no_error example_world
           (mkPath true ["nowhere"]) (mkPath true ["nowhere"; "x"])).
  - reflexivity.
  - by exists ["x"].
Defined.

(** ** Parsing as a whole *)

Lemma dict_set_keys {V} key (v : V) d :
  dict_keys (dict_set key v d)
  = if decide (key ∈ dict_keys d) then dict_keys d else dict_keys d ++ [key].
Proof.
  unfold dict_keys. induction d as [|[k w] d IH]; cbn.
  - rewrite decide_False; [done|apply not_elem_of_nil].
  - destruct (String.eqb_spec k key) as [->|Hne]; cbn.
    + rewrite decide_True; [done|apply elem_of_cons; by left].
    + rewrite IH. destruct (decide (key ∈ map fst d)) as [Hin|Hout].
      * rewrite decide_True; [done|apply elem_of_cons; by right].
      * rewrite decide_False; [done|].
        intros [?|?]%elem_of_cons; [congruence|done].
Qed.

Lemma dict_set_keys_elem {V} key (v : V) d k :
  k ∈ dict_keys (dict_set key v d) ↔ k = key ∨ k ∈ dict_keys d.
Proof.
  rewrite dict_set_keys. case_decide as Hin.
  - split; [by right|]. by intros [->|?].
  - rewrite elem_of_app, list_elem_of_singleton. tauto.
Qed.

Lemma dict_set_NoDup {V} key (v : V) d :
  NoDup (dict_keys d) → NoDup (dict_keys (dict_set key v d)).
Proof.
  intros Hnd. rewrite dict_set_keys. case_decide as Hin; [done|].
  apply NoDup_app. split; [done|]. split; [|apply NoDup_singleton].
  intros k Hk ->%list_elem_of_singleton. done.
Qed.

(** The names under which the loop has stored something. *)
Lemma parse_loop_keys w yaml_files :
  ∀ acc configs,
    for_each (parse_one w) acc yaml_files = inr configs →
    (NoDup (dict_keys acc) → NoDup (dict_keys configs))
    ∧ ∀ s, s ∈ dict_keys configs
           ↔ s ∈ dict_keys acc ∨ s ∈ map path_str yaml_files.
Proof.
  induction yaml_files as [|f l IH]; intros acc configs Hrun.
  - cbn in Hrun. injection Hrun as <-. split; [done|].
    intros s. split; [by left|]. intros [?|Hs]; [done|].
    by apply elem_of_nil in Hs.
  - cbn in Hrun. unfold parse_one at 1 in Hrun.
    destruct (load w (path_str f)) as [e|doc]; [done|]. cbn in Hrun.
    destruct (IH _ _ Hrun) as [Hnd Hkeys]. split.
    + intros Hacc. by apply Hnd, dict_set_NoDup.
    + intros s. rewrite Hkeys, dict_set_keys_elem. cbn [map].
      rewrite elem_of_cons. tauto.
Qed.

(** X3: parsing returns a mapping exactly when every file of the list
    can be opened and loaded; a single failing file, wherever it stands
    in the list, makes the whole call raise. *)
Theorem parse_succeeds_iff_all_load (w : world) (yaml_files : list Path) :
  (∃ configs, parse_yaml_configs w yaml_files = inr configs)
  ↔ ∀ f, f ∈ yaml_files → ∃ doc, load w (path_str f) = inr doc.
Proof.
  split.
  - intros [configs Hrun] f Hin.
    destruct (load w (path_str f)) as [e|doc] eqn:Hf; [|by exists doc].
    destruct (first_unparsable w yaml_files)
      as (good & bad & rest & e' & -> & Hgood & Hbad).
    { exists f. split; [done|]. by exists e. }
    by rewrite (parse_stops_at_bad w good bad rest e' Hgood Hbad) in Hrun.
  - intros Hall. by apply parse_all_good.
Qed.

(** X4: on success the result has one entry for each distinct file
    name and no other, and a document that is truthy is stored as it
    was loaded. *)
Theorem parse_result_entries (w : world) (yaml_files : list Path)
    (configs : dict) :
  parse_yaml_configs w yaml_files = inr configs →
  NoDup (dict_keys configs)
  ∧ (∀ s, s ∈ dict_keys configs ↔ s ∈ map path_str yaml_files)
  ∧ (∀ f doc, f ∈ yaml_files → load w (path_str f) = inr doc →
              truthy doc = true →
              dict_get (path_str f) configs = Some doc).
Proof.
  intros Hrun. destruct (parse_loop_keys w yaml_files [] configs Hrun)
    as [Hnd Hkeys].
  split; [apply Hnd; constructor|]. split.
  - intros s. rewrite Hkeys. split; [|by right].
    intros [Hs|?]; [by apply elem_of_nil in Hs|done].
  - intros f doc Hin Hdoc Htruthy.
    rewrite (parse_records w yaml_files [] configs f doc Hrun Hin Hdoc).
    unfold or_empty_dict. by rewrite Htruthy.
Qed.

Lemma parse_result_entries_witness :
  let yaml_files := [mkPath true ["aaa"; "config.yaml"];
                     mkPath true ["aaa"; "a"; "config.yaml"];
                     mkPath true ["aaa"; "config.yaml"]] in
  let configs := [("/aaa/config.yaml", VDict [("name", VScalar (SStr "base"))]);
                  ("/aaa/a/config.yaml", VDict [])] in
  parse_yaml_configs example_world yaml_files = inr configs
  ∧ NoDup (dict_keys configs)
  ∧ dict_get "/aaa/config.yaml" configs
    = Some (VDict [("name", VScalar (SStr "base"))]).
Proof.
  intros yaml_files configs.
  destruct (parse_result_entries example_world yaml_files configs eq_refl)
    as (Hnd & _ & Hdoc).
  split; [reflexivity|]. split; [exact Hnd|].
  apply (Hdoc (mkPath true ["aaa"; "config.yaml"])); [left|reflexivity..].
Defined.

(** ** What [merge_configs_by_depth] can raise *)

Lemma check_files_raise depth errs0 depth_configs :
  Exists (λ fc, isinstance_dict fc.2 = false) depth_configs →
  ∀ st ps,
    tracks errs0 st ps →
    ∃ fc, fc ∈ depth_configs ∧ isinstance_dict fc.2 = false
          ∧ for_each (check_file depth) st depth_configs
            = inl (no_attribute fc.2 "keys").
Proof.
  induction depth_configs as [|[file_path config] depth_configs IH];
    intros Hex st ps Htr; [by apply Exists_nil in Hex|].
  destruct (isinstance_dict config) eqn:Hdict.
  - destruct config as [s|items|entries]; [done|done|].
    apply Exists_cons in Hex as [Hhd|Htl]; [done|].
    destruct (check_keys_tracks depth file_path errs0 (dict_keys entries) st ps Htr)
      as (st1 & Hrun & Htr1).
    destruct (IH Htl st1 _ Htr1) as (fc & Hin & Hfc & Hraise).
    exists fc. split; [apply elem_of_cons; by right|]. split; [done|].
    cbn [for_each]. unfold check_file at 1. cbn [keys_of bind ret fst snd].
    by rewrite Hrun.
  - exists (file_path, config). split; [apply elem_of_cons; by left|].
    split; [done|]. cbn [for_each]. unfold check_file at 1. cbn [fst snd].
    by destruct config.
Qed.

Lemma process_depths_raise depth_groups depths :
  Exists (λ depth, Exists (λ fc, isinstance_dict fc.2 = false)
                     (groups_get depth depth_groups)) depths →
  ∀ merged_config errs,
    ∃ depth fc,
      depth ∈ depths ∧ fc ∈ groups_get depth depth_groups
      ∧ isinstance_dict fc.2 = false
      ∧ for_each (process_depth depth_groups) (merged_config, errs) depths
        = inl (no_attribute fc.2 "keys").
Proof.
  induction depths as [|depth depths IH]; intros Hex merged_config errs;
    [by apply Exists_nil in Hex|].
  destruct (Forall_Exists_dec (λ fc : string * value, isinstance_dict fc.2 = true)
              (λ fc, isinstance_dict fc.2 = false)
              (λ fc, match isinstance_dict fc.2 as b
                           return {b = true} + {b = false} with
                     | true => left eq_refl
                     | false => right eq_refl
                     end)
              (groups_get depth depth_groups)) as [Hall|Hbad].
  - apply Exists_cons in Hex as [Hhd|Htl].
    { exfalso. apply Exists_exists in Hhd as (fc & Hin & Hfc).
      rewrite Forall_forall in Hall. specialize (Hall fc Hin). congruence. }
    cbn [for_each]. rewrite process_depth_run by done. cbn [bind].
    destruct (IH Htl (foldl merge_config merged_config
                        (groups_get depth depth_groups))
                (errs ++ map collision_message
                           (group_collisions depth
                              (groups_get depth depth_groups))))
      as (d & fc & Hd & Hin & Hfc & Hraise).
    exists d, fc. split; [apply elem_of_cons; by right|]. done.
  - destruct (check_files_raise depth errs _ Hbad (mkDetector ∅ ∅ errs) (∅, []))
      as (fc & Hin & Hfc & Hraise).
    { split; [|split]; cbn; [by rewrite dom_empty_L|done|by rewrite app_nil_r]. }
    exists depth, fc. split; [apply elem_of_cons; by left|].
    split; [done|]. split; [done|].
    cbn [for_each]. unfold process_depth. cbn [fst snd]. by rewrite Hraise.
Qed.

(** The two outcomes of [merge_configs_by_depth] as it is embedded
    here, on documents that are finite trees and without the
    interpreter's recursion limit. *)
Lemma merge_configs_by_depth_cases (configs : dict) :
  (Forall (λ fc, isinstance_dict fc.2 = true) configs
   ∧ merge_configs_by_depth configs
     = inr (foldl merge_config [] (merge_order configs),
            map collision_message (all_collisions configs)))
  ∨ (∃ fc, fc ∈ configs ∧ isinstance_dict fc.2 = false
           ∧ merge_configs_by_depth configs = inl (no_attribute fc.2 "keys")).
Proof.
  destruct (Forall_Exists_dec (λ fc : string * value, isinstance_dict fc.2 = true)
              (λ fc, isinstance_dict fc.2 = false)
              (λ fc, match isinstance_dict fc.2 as b
                           return {b = true} + {b = false} with
                     | true => left eq_refl
                     | false => right eq_refl
                     end) configs) as [Hall|Hbad].
  - left. split; [done|]. by apply merge_configs_by_depth_run.
  - right. apply Exists_exists in Hbad as (bad & Hbad_in & Hbad).
    destruct configs as [|fc0 configs0]; [by apply elem_of_nil in Hbad_in|].
    set (configs := fc0 :: configs0) in *.
    destruct (group_by_depth_keys configs) as [_ Hkeys].
    destruct (process_depths_raise (group_by_depth configs)
                (sorted (map fst (group_by_depth configs)))) with
      (merged_config := @nil (string * value)) (errs := @nil string)
      as (d & fc & _ & Hin & Hfc & Hraise).
    { apply Exists_exists. exists (path_depth bad.1). split.
      - rewrite sorted_perm. apply Hkeys. by exists bad.
      - apply Exists_exists. exists bad. split; [|done].
        rewrite group_by_depth_get. by apply list_elem_of_filter. }
    exists fc. rewrite group_by_depth_get in Hin.
    apply list_elem_of_filter in Hin as [_ Hin]. done.
Qed.

(** X5: what the outcome of a merge tells.  When the merge returns,
    every file held a mapping, and the result is the fold of the files
    in merge order with the diagnostics of the collision check.  An
    [AttributeError] is the one of [config.keys()] for a file whose
    document is not a mapping: the collision check meets such a
    document before [_deep_merge] does.  And the lookup
    [key_sources[key]] never raises a [KeyError]: a key found in
    [all_keys_at_depth] has its source recorded. *)
Theorem merge_configs_by_depth_outcomes (configs : dict) :
  (∀ merged_config errs,
     merge_configs_by_depth configs = inr (merged_config, errs) →
     Forall (λ fc, isinstance_dict fc.2 = true) configs
     ∧ merged_config = foldl merge_config [] (merge_order configs)
     ∧ errs = map collision_message (all_collisions configs))
  ∧ (∀ msg,
       merge_configs_by_depth configs = inl (AttributeError msg) →
       ∃ fc, fc ∈ configs ∧ isinstance_dict fc.2 = false
             ∧ AttributeError msg = no_attribute fc.2 "keys")
  ∧ (∀ key, merge_configs_by_depth configs ≠ inl (KeyError key)).
Proof.
  destruct (merge_configs_by_depth_cases configs)
    as [[Hall ->]|(fc & Hin & Hfc & ->)].
  - split; [|split].
    + by intros merged_config errs [= <- <-].
    + intros msg Hmsg. discriminate Hmsg.
    + intros key Hkey. discriminate Hkey.
  - unfold no_attribute. split; [|split].
    + intros merged_config errs Hret. discriminate Hret.
    + intros msg [= <-]. by exists fc.
    + intros key Hkey. discriminate Hkey.
Qed.

Lemma merge_configs_by_depth_outcomes_witness :
  let configs := [("/aaa/config.yaml", VDict [("name", VScalar (SStr "base"))]);
                  ("/aaa/a/config.yaml", VList [VScalar (SInt 1)])] in
  merge_configs_by_depth configs
  = inl (AttributeError "'list' object has no attribute 'keys'")
  ∧ ∃ fc, fc ∈ configs ∧ isinstance_dict fc.2 = false
          ∧ AttributeError "'list' object has no attribute 'keys'"
            = no_attribute fc.2 "keys".
Proof.
  intros configs. split; [reflexivity|].
  apply (proj1 (proj2 (merge_configs_by_depth_outcomes configs))).
  reflexivity.
Defined.

(** ** Depth decides, not the order across depths *)

Lemma for_each_ext {S A} (f g : S → A → result S) st l :
  (∀ s a, a ∈ l → f s a = g s a) → for_each f st l = for_each g st l.
Proof.
  revert st. induction l as [|a l IH]; intros st Hext; [done|].
  cbn. rewrite Hext by (apply elem_of_cons; by left).
  destruct (g st a) as [e|st']; [done|]. cbn. apply IH.
  intros s b Hb. apply Hext. apply elem_of_cons. by right.
Qed.

Lemma at_depth_elem d configs fc :
  fc ∈ at_depth d configs ↔ path_depth fc.1 = d ∧ fc ∈ configs.
Proof. unfold at_depth. by rewrite list_elem_of_filter. Qed.

Lemma depths_of_groups configs d :
  d ∈ sorted (map fst (group_by_depth configs)) ↔ at_depth d configs ≠ [].
Proof.
  destruct (group_by_depth_keys configs) as [_ Hkeys].
  rewrite sorted_perm, Hkeys. split.
  - intros (fc & Hin & Hd) Hnil.
    assert (fc ∈ at_depth d configs) as Hfc by (by apply at_depth_elem).
    rewrite Hnil in Hfc. by apply elem_of_nil in Hfc.
  - destruct (at_depth d configs) as [|fc rest] eqn:Hat; [done|]. intros _.
    assert (fc ∈ at_depth d configs) as [Hd Hin]%at_depth_elem
      by (rewrite Hat; left).
    by exists fc.
Qed.

Lemma sorted_depths_agree configs1 configs2 :
  (∀ d, at_depth d configs1 = at_depth d configs2) →
  sorted (map fst (group_by_depth configs1))
  = sorted (map fst (group_by_depth configs2)).
Proof.
  intros Hagree. apply (@StronglySorted_unique nat le _).
  - apply sorted_sorted.
  - apply sorted_sorted.
  - apply NoDup_Permutation.
    + rewrite sorted_perm. apply group_by_depth_keys.
    + rewrite sorted_perm. apply group_by_depth_keys.
    + intros d. by rewrite !depths_of_groups, Hagree.
Qed.

(** X6: two inputs that list, for every depth, the same files in the
    same order give the same outcome, whatever the order of their files
    across depths: the position of a file among files of other depths
    has no influence on the merged mapping, on the diagnostics or on an
    error. *)
Theorem merge_configs_by_depth_depthwise (configs1 configs2 : dict) :
  (∀ d, at_depth d configs1 = at_depth d configs2) →
  merge_configs_by_depth configs1 = merge_configs_by_depth configs2.
Proof.
  intros Hagree.
  destruct configs1 as [|fc1 rest1], configs2 as [|fc2 rest2]; [done| | |].
  - specialize (Hagree (path_depth fc2.1)). unfold at_depth in Hagree.
    by rewrite filter_nil, filter_cons_True in Hagree.
  - specialize (Hagree (path_depth fc1.1)). unfold at_depth in Hagree.
    by rewrite filter_nil, filter_cons_True in Hagree.
  - unfold merge_configs_by_depth.
    rewrite (sorted_depths_agree _ _ Hagree). apply for_each_ext.
    intros st d _. unfold process_depth.
    by rewrite !group_by_depth_get, Hagree.
Qed.

Lemma merge_configs_by_depth_depthwise_witness :
  let shallow := ("/base/config.yaml", VDict [("key", VScalar (SStr "base"))]) in
  let deep := ("/base/level1/config.yaml",
               VDict [("key", VScalar (SStr "level1"))]) in
  (∀ d, at_depth d [deep; shallow] = at_depth d [shallow; deep])
  ∧ merge_configs_by_depth [deep; shallow]
    = merge_configs_by_depth [shallow; deep].
Proof.
  intros shallow deep.
  assert (∀ d, at_depth d [deep; shallow] = at_depth d [shallow; deep]) as Hagree.
  { intros d. unfold at_depth. rewrite !filter_cons, !filter_nil.
    change (path_depth deep.1) with 4. change (path_depth shallow.1) with 3.
    repeat case_decide; (done || lia). }
  split; [exact Hagree|].
  exact (merge_configs_by_depth_depthwise [deep; shallow] [shallow; deep] Hagree).
Defined.

Lemma filter_either {A} (P Q : A → Prop)
    `{∀ x, Decision (P x)} `{∀ x, Decision (Q x)} (l : list A) :
  (∀ x, x ∈ l → P x → Q x → False) →
  filter P l ++ filter Q l ≡ₚ filter (λ x, P x ∨ Q x) l.
Proof.
  induction l as [|x l IH]; intros Hdisj; [done|].
  assert (filter P l ++ filter Q l ≡ₚ filter (λ x, P x ∨ Q x) l) as IH'.
  { apply IH. intros y Hy. apply Hdisj. apply elem_of_cons. by right. }
  rewrite !filter_cons.
  destruct (decide (P x)) as [HP|HP], (decide (Q x)) as [HQ|HQ].
  - exfalso. eapply Hdisj; [|done..]. apply elem_of_cons. by left.
  - rewrite decide_True by (by left). cbn. by rewrite IH'.
  - rewrite decide_True by (by right).
    rewrite <- Permutation_middle. by rewrite IH'.
  - rewrite decide_False by tauto. done.
Qed.

Lemma filter_all_true {A} (P : A → Prop) `{∀ x, Decision (P x)} (l : list A) :
  (∀ x, x ∈ l → P x) → filter P l = l.
Proof.
  induction l as [|x l IH]; intros Hall; [done|].
  rewrite filter_cons_True by (apply Hall; apply elem_of_cons; by left).
  f_equal. apply IH. intros y Hy. apply Hall. apply elem_of_cons. by right.
Qed.

Lemma filter_depth_in_nil (configs : dict) :
  filter (λ fc, path_depth fc.1 ∈ []) configs = [].
Proof.
  induction configs as [|fc configs IH]; [done|].
  rewrite filter_cons_False; [exact IH|apply not_elem_of_nil].
Qed.

Lemma bind_at_depth_perm configs depths :
  NoDup depths →
  depths ≫= (λ d, at_depth d configs)
  ≡ₚ filter (λ fc, path_depth fc.1 ∈ depths) configs.
Proof.
  induction depths as [|d depths IH]; intros Hnd.
  - by rewrite bind_nil_list, filter_depth_in_nil.
  - apply NoDup_cons in Hnd as [Hd Hnd]. rewrite bind_cons, IH by done.
    unfold at_depth. rewrite filter_either.
    + apply Permutation_refl'. apply list_filter_iff. intros fc.
      rewrite elem_of_cons. naive_solver.
    + intros fc _ Heq Hin. apply Hd. by rewrite <- Heq.
Qed.

Lemma merge_order_perm (configs : dict) :
  merge_order configs ≡ₚ configs.
Proof.
  destruct (group_by_depth_keys configs) as [Hnd Hkeys].
  rewrite merge_order_eq, bind_at_depth_perm by (by rewrite sorted_perm).
  rewrite filter_all_true; [done|].
  intros x Hx. rewrite sorted_perm. apply Hkeys. by exists x.
Qed.

(** X7: every file of the input is merged exactly once: the order in
    which the files are folded is a rearrangement of the input. *)
Theorem merge_order_permutation (configs : dict) :
  merge_order configs ≡ₚ configs
  ∧ ∀ fc, fc ∈ merge_order configs ↔ fc ∈ configs.
Proof.
  split; [apply merge_order_perm|]. intros fc. by rewrite merge_order_perm.
Qed.

(** ** How many diagnostics *)

Lemma blamed_length depth key paths :
  length (blamed depth key paths) = length paths - 1.
Proof. destruct paths as [|first later]; cbn; [done|]. rewrite length_map. lia. Qed.

(** X8: for any number of files: when [n] files of one depth define the
    same top-level key, the merge reports [n - 1] collisions for that
    key at that depth, one for each file after the first, and each of
    them names the first file as the existing source. *)
Theorem collisions_blame_first (configs : dict) (depth : nat) (key : string) :
  Forall (λ fc, isinstance_dict fc.2 = true ∧ wf_value fc.2 = true) configs →
  let sources := map fst (defining key (at_depth depth configs)) in
  let reported := filter (λ c, c_depth c = depth ∧ c_key c = key)
                    (all_collisions configs) in
  (∃ merged_config,
     merge_configs_by_depth configs
     = inr (merged_config, map collision_message (all_collisions configs)))
  ∧ length reported = length sources - 1
  ∧ reported = match sources with
               | [] => []
               | first :: later => map (mkCollision depth key first) later
               end.
Proof.
  intros Hconfigs sources reported. split; [|split].
  - eexists. apply merge_configs_by_depth_run.
    eapply Forall_impl; [exact Hconfigs|]. by intros fc [? _].
  - unfold reported. rewrite all_collisions_key.
    + apply blamed_length.
    + eapply Forall_impl; [exact Hconfigs|]. by intros fc [_ ?].
  - unfold reported. rewrite all_collisions_key; [done|].
    eapply Forall_impl; [exact Hconfigs|]. by intros fc [_ ?].
Qed.

Lemma collisions_blame_first_witness :
  let configs :=
    [("/base/a.yaml", VDict [("key", VScalar (SInt 1))]);
     ("/base/b.yaml", VDict [("key", VScalar (SInt 2))]);
     ("/base/c.yaml", VDict [("other", VScalar (SInt 3))]);
     ("/base/d.yaml", VDict [("key", VScalar (SInt 4))]);
     ("/base/e.yaml", VDict [("key", VScalar (SInt 5))])] in
  Forall (λ fc, isinstance_dict fc.2 = true ∧ wf_value fc.2 = true) configs
  ∧ length (filter (λ c, c_depth c = 3 ∧ c_key c = "key")
              (all_collisions configs)) = 3.
Proof.
  intros configs.
  assert (Forall (λ fc, isinstance_dict fc.2 = true ∧ wf_value fc.2 = true)
            configs) as Hconfigs by (repeat constructor).
  split; [exact Hconfigs|].
  destruct (collisions_blame_first configs 3 "key" Hconfigs) as (_ & Hlen & _).
  exact Hlen.
Defined.

(** X9: the merge comes back without any diagnostic exactly when, at
    every depth, no top-level key is defined by two files of that
    depth. *)
Theorem no_diagnostics_iff_no_shared_key (configs : dict) :
  Forall (λ fc, isinstance_dict fc.2 = true ∧ wf_value fc.2 = true) configs →
  ∃ merged_config errs,
    merge_configs_by_depth configs = inr (merged_config, errs)
    ∧ (errs = [] ↔
       ∀ depth key, length (defining key (at_depth depth configs)) ≤ 1).
Proof.
  intros Hconfigs.
  assert (Forall (λ fc, wf_value fc.2 = true) configs) as Hwf.
  { eapply Forall_impl; [exact Hconfigs|]. by intros fc [_ ?]. }
  exists (foldl merge_config [] (merge_order configs)),
         (map collision_message (all_collisions configs)).
  split.
  { apply merge_configs_by_depth_run.
    eapply Forall_impl; [exact Hconfigs|]. by intros fc [? _]. }
  split.
  - intros Hnil depth key. apply fmap_nil_inv in Hnil.
    pose proof (all_collisions_key configs depth key Hwf) as Hkey.
    rewrite Hnil, filter_nil in Hkey.
    apply (f_equal length) in Hkey.
    rewrite blamed_length, length_map in Hkey. cbn in Hkey. lia.
  - intros Hone. destruct (all_collisions configs) as [|c rest] eqn:Hall; [done|].
    exfalso.
    pose proof (all_collisions_key configs (c_depth c) (c_key c) Hwf) as Hkey.
    rewrite Hall, filter_cons_True in Hkey by done.
    apply (f_equal length) in Hkey.
    rewrite blamed_length, length_map in Hkey. cbn in Hkey.
    specialize (Hone (c_depth c) (c_key c)). lia.
Qed.

Lemma no_diagnostics_iff_no_shared_key_witness :
  let configs :=
    [("/base/a.yaml", VDict [("key", VScalar (SInt 1))]);
     ("/base/level1/b.yaml", VDict [("key", VScalar (SInt 2))])] in
  Forall (λ fc, isinstance_dict fc.2 = true ∧ wf_value fc.2 = true) configs
  ∧ ∃ merged_config errs,
      merge_configs_by_depth configs = inr (merged_config, errs)
      ∧ (errs = [] ↔
         ∀ depth key, length (defining key (at_depth depth configs)) ≤ 1).
Proof.
  intros configs.
  assert (Forall (λ fc, isinstance_dict fc.2 = true ∧ wf_value fc.2 = true)
            configs) as Hconfigs by (repeat constructor).
  split; [exact Hconfigs|].
  exact (no_diagnostics_iff_no_shared_key configs Hconfigs).
Defined.

(** ** The keys of a merge *)

Lemma filter_ext_elem {A} (P Q : A → Prop)
    `{∀ x, Decision (P x)} `{∀ x, Decision (Q x)} (l : list A) :
  (∀ x, x ∈ l → P x ↔ Q x) → filter P l = filter Q l.
Proof.
  induction l as [|x l IH]; intros Hext; [done|].
  rewrite !filter_cons.
  assert (filter P l = filter Q l) as ->.
  { apply IH. intros y Hy. apply Hext. apply elem_of_cons. by right. }
  assert (P x ↔ Q x) as Hx by (apply Hext; apply elem_of_cons; by left).
  destruct (decide (P x)), (decide (Q x)); tauto.
Qed.

Lemma merge_step_keys result k v :
  dict_keys (merge_step result (k, v))
  = if decide (k ∈ dict_keys result) then dict_keys result
    else dict_keys result ++ [k].
Proof. rewrite merge_step_set. apply dict_set_keys. Qed.

(** X10: the order of the keys of a merge: the keys of the base come
    first, in the order they had, and the keys that only the override
    has follow, in the order of the override. *)
Theorem deep_merge_key_order (A B : dict) :
  NoDup (dict_keys B) →
  dict_keys (_deep_merge A B)
  = dict_keys A ++ filter (λ k, k ∉ dict_keys A) (dict_keys B).
Proof.
  rewrite _deep_merge_unfold. revert A.
  induction B as [|[k v] B IH]; intros A Hnd.
  - cbn. by rewrite app_nil_r.
  - cbn [dict_keys map fst] in Hnd. apply NoDup_cons in Hnd as [Hk Hnd].
    cbn [foldl]. rewrite (IH _ Hnd), merge_step_keys.
    change (dict_keys ((k, v) :: B)) with (k :: dict_keys B).
    rewrite filter_cons. destruct (decide (k ∈ dict_keys A)) as [Hin|Hout].
    + by rewrite decide_False by tauto.
    + rewrite decide_True by done. rewrite <- app_assoc. cbn [app].
      do 2 f_equal. apply filter_ext_elem. intros x Hx.
      rewrite elem_of_app, list_elem_of_singleton.
      split; [tauto|]. intros Hx' [?| ->]; done.
Qed.

Lemma deep_merge_key_order_witness :
  let A := [("a", VScalar (SInt 1)); ("b", VScalar (SInt 2))] in
  let B := [("c", VScalar (SInt 3)); ("a", VScalar (SInt 4))] in
  NoDup (dict_keys B)
  ∧ dict_keys (_deep_merge A B) = ["a"; "b"; "c"].
Proof.
  intros A B.
  assert (NoDup (dict_keys B)) as Hnd
    by (apply (proj1 (bool_decide_eq_true _)); reflexivity).
  split; [exact Hnd|]. exact (deep_merge_key_order A B Hnd).
Defined.

Lemma dict_set_new key (v : value) (d : dict) :
  key ∉ dict_keys d → dict_set key v d = d ++ [(key, v)].
Proof.
  unfold dict_keys. induction d as [|[k w] d IH]; cbn; [done|].
  rewrite not_elem_of_cons. intros [Hne Hout].
  destruct (String.eqb_spec k key) as [->|_]; [done|]. by rewrite IH.
Qed.

(** X11: two mappings without a common key merge into the one followed
    by the other; in particular merging into the empty mapping gives
    the override back. *)
Theorem deep_merge_disjoint (A B : dict) :
  NoDup (dict_keys B) →
  (∀ k, k ∈ dict_keys A → k ∉ dict_keys B) →
  _deep_merge A B = A ++ B.
Proof.
  rewrite _deep_merge_unfold. revert A.
  induction B as [|[k v] B IH]; intros A Hnd Hdisj.
  - cbn. by rewrite app_nil_r.
  - cbn [dict_keys map fst] in Hnd. apply NoDup_cons in Hnd as [Hk Hnd].
    assert (k ∉ dict_keys A) as HkA.
    { intros HkA. apply (Hdisj k HkA). apply elem_of_cons. by left. }
    cbn [foldl]. rewrite merge_step_set.
    replace (dict_get k A) with (@None value)
      by (symmetry; by apply dict_get_None).
    cbn [merged_value]. rewrite dict_set_new by done. rewrite IH.
    + by rewrite <- app_assoc.
    + done.
    + intros x Hx Hx'. unfold dict_keys in Hx. rewrite map_app in Hx.
      apply elem_of_app in Hx as [Hx| ->%list_elem_of_singleton]; [|done].
      apply (Hdisj x Hx). apply elem_of_cons. by right.
Qed.

Lemma deep_merge_disjoint_witness :
  let B := [("c", VScalar (SInt 3)); ("a", VDict [])] in
  NoDup (dict_keys B) ∧ _deep_merge [] B = B.
Proof.
  intros B.
  assert (NoDup (dict_keys B)) as Hnd
    by (apply (proj1 (bool_decide_eq_true _)); reflexivity).
  split; [exact Hnd|].
  apply (deep_merge_disjoint [] B Hnd). intros k Hk. by apply elem_of_nil in Hk.
Defined.

Lemma deep_merge_keys_elem A B k :
  k ∈ dict_keys (_deep_merge A B) ↔ k ∈ dict_keys A ∨ k ∈ dict_keys B.
Proof.
  rewrite _deep_merge_unfold. revert A.
  induction B as [|[k0 v0] B IH]; intros A.
  - cbn. split; [by left|]. intros [?|Hk]; [done|]. by apply elem_of_nil in Hk.
  - cbn [foldl]. rewrite IH, merge_step_set, dict_set_keys_elem.
    change (dict_keys ((k0, v0) :: B)) with (k0 :: dict_keys B).
    rewrite elem_of_cons. tauto.
Qed.

Lemma merge_configs_keys_elem l :
  ∀ M k,
    k ∈ dict_keys (foldl merge_config M l)
    ↔ k ∈ dict_keys M ∨ ∃ fc, fc ∈ l ∧ k ∈ dict_keys (entries_of fc.2).
Proof.
  induction l as [|fc l IH]; intros M k.
  - cbn. split; [by left|]. intros [?|(fc & Hfc & _)]; [done|].
    by apply elem_of_nil in Hfc.
  - cbn [foldl]. rewrite IH. unfold merge_config at 1.
    rewrite deep_merge_keys_elem. split.
    + intros [[?|?]|(fc' & Hin & Hk)].
      * by left.
      * right. exists fc. split; [apply elem_of_cons; by left|done].
      * right. exists fc'. split; [apply elem_of_cons; by right|done].
    + intros [?|(fc' & [->|Hin]%elem_of_cons & Hk)].
      * left. by left.
      * left. by right.
      * right. by exists fc'.
Qed.

(** X12: the top-level keys of the merged mapping are exactly the
    top-level keys of the files: no key of any file is lost, whatever
    its depth, and no key is made up. *)
Theorem merged_keys_are_file_keys (configs : dict) :
  Forall (λ fc, isinstance_dict fc.2 = true) configs →
  ∃ merged_config errs,
    merge_configs_by_depth configs = inr (merged_config, errs)
    ∧ ∀ k, k ∈ dict_keys merged_config
           ↔ ∃ fc, fc ∈ configs ∧ k ∈ dict_keys (entries_of fc.2).
Proof.
  intros Hdicts. eexists _, _. split; [by apply merge_configs_by_depth_run|].
  intros k. rewrite merge_configs_keys_elem. split.
  - intros [Hk|(fc & Hin & Hk)]; [by apply elem_of_nil in Hk|].
    exists fc. split; [|done]. by rewrite <- merge_order_perm.
  - intros (fc & Hin & Hk). right. exists fc. split; [|done].
    by rewrite merge_order_perm.
Qed.

Lemma merged_keys_are_file_keys_witness :
  let configs :=
    [("/base/level1/b.yaml", VDict [("b", VScalar (SInt 2))]);
     ("/base/a.yaml", VDict [("a", VScalar (SInt 1))])] in
  Forall (λ fc, isinstance_dict fc.2 = true) configs
  ∧ ∃ merged_config errs,
      merge_configs_by_depth configs = inr (merged_config, errs)
      ∧ ∀ k, k ∈ dict_keys merged_config
             ↔ ∃ fc, fc ∈ configs ∧ k ∈ dict_keys (entries_of fc.2).
Proof.
  intros configs.
  assert (Forall (λ fc, isinstance_dict fc.2 = true) configs) as Hdicts
    by (repeat constructor).
  split; [exact Hdicts|]. exact (merged_keys_are_file_keys configs Hdicts).
Defined.

(** ** The deepest file wins *)

Lemma entries_of_NoDup v :
  wf_value v = true → NoDup (dict_keys (entries_of v)).
Proof.
  destruct v as [s|items|entries]; cbn [entries_of]; [constructor..|].
  apply wf_dict_NoDup.
Qed.

Lemma last_definer_wins k v fc l :
  ∀ M,
    Forall (λ fc', wf_value fc'.2 = true) l →
    StronglySorted (λ x y : string * value, path_depth x.1 ≤ path_depth y.1) l →
    fc ∈ l →
    dict_get k (entries_of fc.2) = Some v →
    isinstance_dict v = false →
    (∀ fc', fc' ∈ l → k ∈ dict_keys (entries_of fc'.2) →
            path_depth fc'.1 < path_depth fc.1 ∨ fc' = fc) →
    dict_get k (foldl merge_config M l) = Some v.
Proof.
  induction l as [|x l IH] using rev_ind;
    intros M Hwf Hsorted Hin Hk Hv Hdeepest; [by apply elem_of_nil in Hin|].
  apply Forall_app in Hwf as [Hwf Hwfx]. rewrite Forall_singleton in Hwfx.
  rewrite foldl_app. cbn [foldl]. unfold merge_config at 1.
  rewrite (deep_merge_get _ _ k (entries_of_NoDup _ Hwfx)).
  destruct (dict_get k (entries_of x.2)) as [vb|] eqn:Hx.
  - destruct (Hdeepest x) as [Hlt| ->].
    + apply elem_of_app. right. by apply list_elem_of_singleton.
    + apply (proj1 (dict_mem_keys k (entries_of x.2))).
      unfold dict_mem. by rewrite Hx.
    + exfalso. apply elem_of_app in Hin as [Hin| ->%list_elem_of_singleton];
        [|lia].
      pose proof (StronglySorted_app_1_elem_of _ l [x] fc x Hsorted Hin) as Hle.
      cbn beta in Hle. specialize (Hle ltac:(left)). lia.
    + rewrite Hk in Hx. injection Hx as <-.
      by rewrite merged_value_not_dict.
  - apply elem_of_app in Hin as [Hin| ->%list_elem_of_singleton];
      [|congruence].
    apply IH; [done| |done..|].
    + by apply StronglySorted_app_1_l in Hsorted.
    + intros fc' Hfc'. apply Hdeepest. apply elem_of_app. by left.
Qed.

(** X13: the priority rule at the top level: when one file lies deeper
    than every other file that defines a key, and its value for the key
    is not a mapping, the merged mapping holds that value under the key,
    wherever the file stands in the input. *)
Theorem deepest_value_wins (configs : dict) (file_path : string)
    (config : value) (key : string) (v : value) :
  Forall (λ fc, isinstance_dict fc.2 = true ∧ wf_value fc.2 = true) configs →
  (file_path, config) ∈ configs →
  dict_get key (entries_of config) = Some v →
  isinstance_dict v = false →
  (∀ fc, fc ∈ configs → key ∈ dict_keys (entries_of fc.2) →
         path_depth fc.1 < path_depth file_path ∨ fc = (file_path, config)) →
  ∃ merged_config errs,
    merge_configs_by_depth configs = inr (merged_config, errs)
    ∧ dict_get key merged_config = Some v.
Proof.
  intros Hconfigs Hin Hkey Hv Hdeepest. eexists _, _. split.
  { apply merge_configs_by_depth_run.
    eapply Forall_impl; [exact Hconfigs|]. by intros fc [? _]. }
  apply (last_definer_wins key v (file_path, config)); [| | |done|done|].
  - rewrite merge_order_perm.
    eapply Forall_impl; [exact Hconfigs|]. by intros fc [_ ?].
  - apply merge_order_sorted.
  - by rewrite merge_order_perm.
  - intros fc Hfc. apply Hdeepest. by rewrite <- merge_order_perm.
Qed.

Lemma deepest_value_wins_witness :
  let deep := ("/base/level1/level2/config.yaml",
               VDict [("key", VScalar (SStr "deep"))]) in
  let configs :=
    [deep;
     ("/base/config.yaml", VDict [("key", VDict [("x", VScalar (SInt 1))])]);
     ("/base/level1/config.yaml", VDict [("other", VScalar (SInt 2))])] in
  Forall (λ fc, isinstance_dict fc.2 = true ∧ wf_value fc.2 = true) configs
  ∧ ∃ merged_config errs,
      merge_configs_by_depth configs = inr (merged_config, errs)
      ∧ dict_get "key" merged_config = Some (VScalar (SStr "deep")).
Proof.
  intros deep configs.
  assert (Forall (λ fc, isinstance_dict fc.2 = true ∧ wf_value fc.2 = true)
            configs) as Hconfigs by (repeat constructor).
  split; [exact Hconfigs|].
  apply (deepest_value_wins configs deep.1 deep.2 "key" (VScalar (SStr "deep"))
           Hconfigs).
  - left.
  - reflexivity.
  - reflexivity.
  - intros fc Hfc Hkey.
    apply elem_of_cons in Hfc as [->|Hfc]; [by right|].
    apply elem_of_cons in Hfc as [->|Hfc]; [left; vm_compute; lia|].
    apply list_elem_of_singleton in Hfc as ->.
    apply elem_of_cons in Hkey as [Hkey|Hkey]; [discriminate Hkey|].
    by apply elem_of_nil in Hkey.
Defined.

(** ** The whole pipeline *)

Lemma or_empty_dict_not_dict doc :
  isinstance_dict (or_empty_dict doc) = false →
  truthy doc = true ∧ or_empty_dict doc = doc.
Proof. unfold or_empty_dict. by destruct (truthy doc). Qed.

(** A parse that raises has met a file that does not load, and says so. *)
Lemma parse_raise_inv w yaml_files :
  ∀ acc e,
    for_each (parse_one w) acc yaml_files = inl e →
    ∃ bad e',
      bad ∈ yaml_files ∧ load w (path_str bad) = inl e'
      ∧ e = Exception ("Failed to parse " +:+ path_str bad +:+ ": " +:+ e').
Proof.
  induction yaml_files as [|f l IH]; intros acc e Hrun; [done|].
  cbn in Hrun. unfold parse_one at 1 in Hrun.
  destruct (load w (path_str f)) as [e'|doc] eqn:Hf; cbn in Hrun.
  - injection Hrun as <-. exists f, e'. split; [apply elem_of_cons; by left|done].
  - destruct (IH _ _ Hrun) as (bad & e' & Hin & Hbad & ->).
    exists bad, e'. split; [apply elem_of_cons; by right|done].
Qed.

(** A parse that returns has loaded every file. *)
Lemma parse_return_inv w yaml_files :
  ∀ acc configs,
    for_each (parse_one w) acc yaml_files = inr configs →
    ∀ f, f ∈ yaml_files → ∃ doc, load w (path_str f) = inr doc.
Proof.
  induction yaml_files as [|g l IH]; intros acc configs Hrun f Hin.
  - by apply elem_of_nil in Hin.
  - cbn in Hrun. unfold parse_one at 1 in Hrun.
    destruct (load w (path_str g)) as [e|doc] eqn:Hg; [done|]. cbn in Hrun.
    apply elem_of_cons in Hin as [->|Hin]; [by exists doc|by eapply IH].
Qed.

(** Every entry of a parse result is the document of a file of the list. *)
Lemma parse_entry_origin w yaml_files configs fc :
  parse_yaml_configs w yaml_files = inr configs →
  fc ∈ configs →
  ∃ f doc, f ∈ yaml_files ∧ load w (path_str f) = inr doc
           ∧ fc = (path_str f, or_empty_dict doc).
Proof.
  intros Hrun Hfc.
  destruct (parse_loop_keys w yaml_files [] configs Hrun) as [Hnd Hkeys].
  assert (fc.1 ∈ dict_keys configs) as Hk.
  { apply list_elem_of_fmap. by exists fc. }
  apply Hkeys in Hk as [Hk|Hk]; [by apply elem_of_nil in Hk|].
  apply list_elem_of_fmap in Hk as (f & Hname & Hf).
  destruct (parse_return_inv w yaml_files [] configs Hrun f Hf) as [doc Hdoc].
  exists f, doc. split; [done|]. split; [done|].
  pose proof (parse_records w yaml_files [] configs f doc Hrun Hf Hdoc) as Hget.
  destruct fc as [s v]. cbn in Hname. subst s.
  rewrite (dict_get_elem_of _ v configs) in Hget; [|apply Hnd; constructor|done].
  by injection Hget as ->.
Qed.

(** X14: what the outcome of the main function tells.  When it
    returns, the target is the base or below it, and every file found
    loaded to a mapping or to a falsy document.  An [Exception] is the
    one of [parse_yaml_configs] for a file that was found and could not
    be loaded, with the message that names the file.  An
    [AttributeError] is the one of [config.keys()] for a file that was
    found and whose document is truthy and not a mapping. *)
Theorem merge_hierarchical_configs_outcomes (w : world)
    (base_dir target_path : Path) :
  (∀ r,
     merge_hierarchical_configs w base_dir target_path = inr r →
     names (resolve w base_dir) `prefix_of` names (resolve w target_path)
     ∧ ∃ yaml_files,
         find_yaml_files_in_hierarchy w base_dir target_path = inr yaml_files
         ∧ ∀ f, f ∈ yaml_files →
                ∃ doc, load w (path_str f) = inr doc
                       ∧ isinstance_dict (or_empty_dict doc) = true)
  ∧ (∀ msg,
       merge_hierarchical_configs w base_dir target_path
       = inl (Exception msg) →
       ∃ yaml_files bad e,
         find_yaml_files_in_hierarchy w base_dir target_path = inr yaml_files
         ∧ bad ∈ yaml_files
         ∧ load w (path_str bad) = inl e
         ∧ msg = "Failed to parse " +:+ path_str bad +:+ ": " +:+ e)
  ∧ (∀ msg,
       merge_hierarchical_configs w base_dir target_path
       = inl (AttributeError msg) →
       ∃ yaml_files f doc,
         find_yaml_files_in_hierarchy w base_dir target_path = inr yaml_files
         ∧ f ∈ yaml_files
         ∧ load w (path_str f) = inr doc
         ∧ truthy doc = true
         ∧ isinstance_dict doc = false
         ∧ AttributeError msg = no_attribute doc "keys").
Proof.
  destruct (decide (names (resolve w base_dir)
                      `prefix_of` names (resolve w target_path))) as [Hin|Hout].
  2: { unfold merge_hierarchical_configs.
       rewrite (find_outside w base_dir target_path Hout). cbn [bind].
       split; [|split]; intros ? Hrun; discriminate Hrun. }
  pose proof Hin as [rel Hrel].
  pose proof (find_below w base_dir target_path rel Hrel) as Hfind.
  unfold merge_hierarchical_configs. rewrite Hfind. cbn [bind].
  destruct (os_walk_top w (resolve w base_dir)
              ≫= yaml_in (resolve w base_dir) rel) as [|f0 l] eqn:Hfiles.
  { split; [|split]; [|intros ? Hrun; discriminate Hrun..].
    intros r _. split; [done|]. exists []. split; [done|].
    intros f Hf. by apply elem_of_nil in Hf. }
  set (yaml_files := f0 :: l) in *.
  destruct (parse_yaml_configs w yaml_files) as [e|configs] eqn:Hparse.
  { cbn [bind].
    destruct (parse_raise_inv w yaml_files [] e Hparse)
      as (bad & e' & Hbad_in & Hbad & ->).
    split; [|split]; [intros ? Hrun; discriminate Hrun| |
                      intros ? Hrun; discriminate Hrun].
    intros msg [= <-]. by exists yaml_files, bad, e'. }
  cbn [bind].
  destruct (merge_configs_by_depth_cases configs)
    as [[Hall ->]|(fc & Hfc_in & Hfc & ->)].
  - split; [|split]; [|intros ? Hrun; discriminate Hrun..].
    intros r _. split; [done|]. exists yaml_files. split; [done|]. intros f Hf.
    destruct (parse_return_inv w yaml_files [] configs Hparse f Hf)
      as [doc Hdoc].
    exists doc. split; [done|].
    pose proof (parse_records w yaml_files [] configs f doc Hparse Hf Hdoc)
      as Hget.
    apply dict_get_Some_elem_of in Hget. rewrite Forall_forall in Hall.
    exact (Hall _ Hget).
  - destruct (parse_entry_origin w yaml_files configs fc Hparse Hfc_in)
      as (f & doc & Hf & Hdoc & ->).
    cbn [snd] in Hfc |- *.
    destruct (or_empty_dict_not_dict doc Hfc) as [Htruthy Heq].
    rewrite Heq in Hfc |- *. unfold no_attribute.
    split; [|split]; [intros ? Hrun; discriminate Hrun..|].
    intros msg [= <-]. by exists yaml_files, f, doc.
Qed.

Lemma merge_hierarchical_configs_outcomes_witness :
  merge_hierarchical_configs example_world
    (mkPath true ["aaa"]) (mkPath true ["aaa"; "a"; "c"; "b"])
  = inl (Exception "Failed to parse /aaa/a/c/b/config.yaml: mapping values are not allowed here")
  ∧ ∃ yaml_files bad e,
      find_yaml_files_in_hierarchy example_world
        (mkPath true ["aaa"]) (mkPath true ["aaa"; "a"; "c"; "b"])
      = inr yaml_files
      ∧ bad ∈ yaml_files
      ∧ load example_world (path_str bad) = inl e.
Proof.
  split; [reflexivity|].
  destruct (proj1 (proj2 (merge_hierarchical_configs_outcomes example_world
                            (mkPath true ["aaa"])
                            (mkPath true ["aaa"; "a"; "c"; "b"]))) _ eq_refl)
    as (yaml_files & bad & e & Hfind & Hbad & Hload & _).
  by exists yaml_files, bad, e.
Defined.

(** ** From a path to its name and back *)

Lemma split_on_no_sep sep s :
  sep ∉ list_ascii_of_string s → split_on sep s = [s].
Proof.
  induction s as [|c s IH]; intros Hsep; [done|].
  cbn in Hsep. apply not_elem_of_cons in Hsep as [Hc Hs].
  cbn [split_on]. destruct (Ascii.eqb_spec c sep) as [->|_]; [done|].
  by rewrite IH.
Qed.

Lemma split_on_app sep x rest :
  sep ∉ list_ascii_of_string x →
  split_on sep (x +:+ String sep rest) = x :: split_on sep rest.
Proof.
  induction x as [|c x IH]; intros Hsep.
  - change ("" +:+ String sep rest) with (String sep rest).
    cbn [split_on]. by rewrite Ascii.eqb_refl.
  - cbn in Hsep. apply not_elem_of_cons in Hsep as [Hc Hx].
    change (String c x +:+ String sep rest)
      with (String c (x +:+ String sep rest)).
    cbn [split_on].
    destruct (Ascii.eqb_spec c sep) as [->|_]; [done|]. by rewrite IH.
Qed.

Lemma split_on_concat sep (l : list string) :
  l ≠ [] →
  Forall (λ c, sep ∉ list_ascii_of_string c) l →
  split_on sep (String.concat (String sep "") l) = l.
Proof.
  induction l as [|x l IH]; intros Hne Hall; [done|].
  apply Forall_cons in Hall as [Hx Hl]. destruct l as [|y l].
  - cbn. by apply split_on_no_sep.
  - change (String.concat (String sep "") (x :: y :: l))
      with (x +:+ String sep (String.concat (String sep "") (y :: l))).
    rewrite split_on_app by done. by rewrite IH.
Qed.

Lemma prefix_sep_concat sep x (l : list string) :
  x ≠ "" → sep ∉ list_ascii_of_string x →
  String.prefix (String sep "") (String.concat (String sep "") (x :: l)) = false.
Proof.
  intros Hne Hsep. destruct x as [|c x]; [done|].
  cbn in Hsep. apply not_elem_of_cons in Hsep as [Hc _].
  assert (∀ t, String.prefix (String sep "") (String c t) = false) as Hhead.
  { intros t. cbn. by destruct (ascii_dec sep c). }
  destruct l as [|y l]; [apply Hhead|].
  change (String.concat (String sep "") (String c x :: y :: l))
    with (String c (x +:+ String sep (String.concat (String sep "") (y :: l)))).
  apply Hhead.
Qed.

(** X15: the round trip between the two functions that pass a file
    along.  [parse_yaml_configs] records a file under [str(yaml_file)]
    and [merge_configs_by_depth] reads [Path(file_path)] back from that
    text: for a path whose components are non-empty, are not ["."] and
    hold no ["/"], the path read back is the path written, so that the
    depth of a file is the number of its parts, root included. *)
Theorem path_str_round_trip (p : Path) :
  Forall (λ c, c ≠ "" ∧ c ≠ "." ∧ "/"%char ∉ list_ascii_of_string c)
    (names p) →
  Path_of_string (path_str p) = p
  ∧ path_depth (path_str p) = length (parts p).
Proof.
  intros Hgood.
  assert (Path_of_string (path_str p) = p) as Hback;
    [|split; [done|]; unfold path_depth; by rewrite Hback].
  assert (filter (λ c : string, c ≠ "" ∧ c ≠ ".") (names p) = names p) as Hkeep.
  { apply filter_all_true. intros c Hc. rewrite Forall_forall in Hgood.
    by destruct (Hgood c Hc) as (? & ? & _). }
  assert (Forall (λ c, "/"%char ∉ list_ascii_of_string c) (names p)) as Hsep.
  { eapply Forall_impl; [exact Hgood|]. by intros c (_ & _ & ?). }
  destruct p as [[] ns]; cbn [names] in *; unfold Path_of_string, path_str;
    cbn [is_absolute names].
  - change ("/" +:+ String.concat "/" ns) with (String "/" (String.concat "/" ns)).
    f_equal; [exact (prefix_app "/" _)|]. cbn [split_on].
    rewrite Ascii.eqb_refl.
    rewrite filter_cons_False by (intros [? _]; done).
    destruct ns as [|x ns]; [done|]. by rewrite split_on_concat.
  - destruct ns as [|x ns]; [done|].
    apply Forall_cons in Hgood as [(Hne & _ & Hx) _].
    f_equal; [by apply prefix_sep_concat|]. by rewrite split_on_concat.
Qed.

Lemma path_str_round_trip_witness :
  Path_of_string "/aaa/a/config.yaml" = mkPath true ["aaa"; "a"; "config.yaml"]
  ∧ path_depth "/aaa/a/config.yaml" = 4.
Proof.
  apply (path_str_round_trip (mkPath true ["aaa"; "a"; "config.yaml"])).
  apply (proj1 (bool_decide_eq_true _)). reflexivity.
Defined.

(** ** What the result shares with its arguments *)

Lemma is_dict_at_lt (h : heap) l : is_dict_at h l = true → l < length h.
Proof.
  unfold is_dict_at. destruct (h !! l) as [o|] eqn:Hl; [|done].
  intros _. by eapply lookup_lt_Some.
Qed.

Lemma is_dict_at_alloc (h : heap) o l :
  l < length h → is_dict_at (h ++ [o]) l = is_dict_at h l.
Proof. intros Hl. unfold is_dict_at. by rewrite lookup_app_l. Qed.

(** A write to the mapping under construction, after a call that
    preserved the store, leaves every address with the kind of object
    it had. *)
Lemma is_dict_at_store (hc h1 : heap) result res res1 l :
  hc !! result = Some (ODict res) → preserved hc h1 → l < length hc →
  is_dict_at (<[result := ODict res1]> h1) l = is_dict_at hc l.
Proof.
  intros Hres Hpres Hl. unfold is_dict_at.
  destruct (decide (l = result)) as [->|Hne].
  - rewrite list_lookup_insert_eq; [by rewrite Hres|].
    apply Hpres in Hres. by eapply lookup_lt_Some.
  - rewrite list_lookup_insert_ne by done.
    destruct (lookup_lt_is_Some_2 hc l Hl) as [o Ho].
    by rewrite Ho, (Hpres _ _ Ho).
Qed.

(** The entries that the loop leaves in the mapping under construction,
    key by key. *)
Lemma merge_items_entries (rec : heap → loc → loc → option (heap * loc)) result :
  (∀ h b o h' r, rec h b o = Some (h', r) → r = length h ∧ preserved h h') →
  ∀ items (hc : heap) res h',
    hc !! result = Some (ODict res) →
    NoDup (map fst items) →
    merge_items rec result hc items = Some h' →
    ∃ res',
      h' !! result = Some (ODict res')
      ∧ length hc ≤ length h'
      ∧ (∀ l, l < length hc → is_dict_at h' l = is_dict_at hc l)
      ∧ (∀ k, dict_get k items = None → dict_get k res' = dict_get k res)
      ∧ (∀ k value, dict_get k items = Some value →
           match dict_get k res with
           | Some sub =>
               if is_dict_at hc sub && is_dict_at hc value
               then ∃ merged, dict_get k res' = Some merged ∧ length hc ≤ merged
               else sub < length hc → value < length hc →
                    dict_get k res' = Some value
           | None => dict_get k res' = Some value
           end).
Proof.
  intros Hrec. induction items as [|[key value] items IH];
    intros hc res h' Hres Hnd Hrun.
  { cbn in Hrun. injection Hrun as <-. exists res. by repeat split. }
  cbn [map fst] in Hnd. apply NoDup_cons in Hnd as [Hkey Hnd].
  apply dict_get_None in Hkey.
  assert (∀ (h1 : heap) x,
            preserved hc h1 →
            match dict_get key res with
            | Some sub =>
                if is_dict_at hc sub && is_dict_at hc value
                then length hc ≤ x else x = value
            | None => x = value
            end →
            merge_items rec result
              (<[result := ODict (dict_set key x res)]> h1) items = Some h' →
            ∃ res',
              h' !! result = Some (ODict res')
              ∧ length hc ≤ length h'
              ∧ (∀ l, l < length hc → is_dict_at h' l = is_dict_at hc l)
              ∧ (∀ k, dict_get k ((key, value) :: items) = None →
                      dict_get k res' = dict_get k res)
              ∧ (∀ k v, dict_get k ((key, value) :: items) = Some v →
                   match dict_get k res with
                   | Some sub =>
                       if is_dict_at hc sub && is_dict_at hc v
                       then ∃ merged, dict_get k res' = Some merged
                                      ∧ length hc ≤ merged
                       else sub < length hc → v < length hc →
                            dict_get k res' = Some v
                   | None => dict_get k res' = Some v
                   end)) as Hgo.
  { intros h1 x Hpres1 Hx Hrest.
    pose proof (preserved_length _ _ Hpres1) as Hlen1.
    pose proof (Hpres1 _ _ Hres) as Hres1.
    pose proof (lookup_lt_Some _ _ _ Hres1) as Hlt1.
    set (hc1 := <[result := ODict (dict_set key x res)]> h1) in *.
    assert (length hc1 = length h1) as Hlen by apply length_insert.
    assert (∀ l, l < length hc → is_dict_at hc1 l = is_dict_at hc l) as Hkind.
    { intros l Hl. by eapply is_dict_at_store. }
    destruct (IH hc1 (dict_set key x res) h') as (res' & Hr & Hl & Hk & Hout & Hin);
      [apply list_lookup_insert_eq; lia|done|done|].
    exists res'. split; [done|]. split; [lia|]. split; [|split].
    - intros l Hlt. rewrite Hk by lia. by apply Hkind.
    - intros k Hnone. cbn [dict_get] in Hnone.
      destruct (String.eqb_spec key k) as [->|Hne]; [done|].
      rewrite (Hout k Hnone). by apply dict_get_set_ne.
    - intros k v Hsome. cbn [dict_get] in Hsome.
      destruct (String.eqb_spec key k) as [<-|Hne].
      + injection Hsome as <-.
        rewrite (Hout key Hkey), dict_get_set_eq.
        destruct (dict_get key res) as [sub|]; [|by subst x].
        destruct (is_dict_at hc sub && is_dict_at hc value).
        * by exists x.
        * intros _ _. by subst x.
      + specialize (Hin k v Hsome). rewrite dict_get_set_ne in Hin by done.
        destruct (dict_get k res) as [sub|]; [|done].
        destruct (is_dict_at hc sub && is_dict_at hc v) eqn:Htest.
        * apply andb_prop in Htest as [Hs Hv].
          rewrite !Hkind in Hin by (by apply is_dict_at_lt).
          rewrite Hs, Hv in Hin. destruct Hin as (merged & Hget & Hfresh).
          exists merged. split; [done|lia].
        * intros Hs Hv. rewrite !Hkind, Htest in Hin by done.
          apply Hin; lia. }
  cbn [merge_items] in Hrun. rewrite Hres in Hrun.
  destruct (dict_get key res) as [sub|] eqn:Hsub;
    [|apply (Hgo hc value); [by intros ???|done|done]].
  destruct (is_dict_at hc sub && is_dict_at hc value) eqn:Htest;
    [|apply (Hgo hc value); [by intros ???|done|done]].
  destruct (rec hc sub value) as [[h1 merged]|] eqn:Hcall; [|done].
  apply Hrec in Hcall as [-> Hpres1]. rewrite (Hpres1 _ _ Hres) in Hrun.
  by apply (Hgo h1 (length hc)).
Qed.

(** X16: the copy is shallow.  The mapping that [_deep_merge] returns
    is new, but its values are the objects of its arguments: a key that
    only the base has keeps the address the base holds for it, and a
    key of the override whose value is not merged recursively (the base
    lacks the key, or one of the two values is not a mapping) holds the
    override's address.  Only where both hold a mapping does the result
    hold an object that did not exist before the call. *)
Theorem deep_merge_shares_values (fuel : nat) (h : heap) (base override : loc)
    (h' : heap) (result : loc) (base_entries items : list (string * loc)) :
  deep_merge_heap fuel h base override = Some (h', result) →
  h !! base = Some (ODict base_entries) →
  h !! override = Some (ODict items) →
  NoDup (map fst items) →
  ∃ entries,
    h' !! result = Some (ODict entries)
    ∧ (∀ k, dict_get k items = None →
            dict_get k entries = dict_get k base_entries)
    ∧ (∀ k value, dict_get k items = Some value →
                  dict_get k base_entries = None →
                  dict_get k entries = Some value)
    ∧ (∀ k value sub,
         dict_get k items = Some value →
         dict_get k base_entries = Some sub →
         sub < length h → value < length h →
         is_dict_at h sub && is_dict_at h value = false →
         dict_get k entries = Some value)
    ∧ (∀ k value sub,
         dict_get k items = Some value →
         dict_get k base_entries = Some sub →
         is_dict_at h sub && is_dict_at h value = true →
         ∃ merged, dict_get k entries = Some merged
                   ∧ h !! merged = None ∧ merged ≠ result).
Proof.
  intros Hrun Hbase Hover Hnd. destruct fuel as [|fuel]; [done|].
  cbn [deep_merge_heap] in Hrun. rewrite Hbase, Hover in Hrun.
  destruct (merge_items _ _ _ _) as [h1|] eqn:Hloop; [|done].
  injection Hrun as <- <-.
  destruct (merge_items_entries (deep_merge_heap fuel) (length h)
              (deep_merge_heap_preserved fuel) items
              (h ++ [ODict base_entries]) base_entries h1)
    as (entries & Hres & _ & _ & Hout & Hin);
    [by apply list_lookup_middle|done|done|].
  exists entries. split; [done|]. split; [done|]. split; [|split].
  - intros k value Hk Hnone. specialize (Hin k value Hk). by rewrite Hnone in Hin.
  - intros k value sub Hk Hsub Hs Hv Htest. specialize (Hin k value Hk).
    rewrite Hsub, !is_dict_at_alloc, Htest in Hin by done.
    apply Hin; rewrite length_app; lia.
  - intros k value sub Hk Hsub Htest. specialize (Hin k value Hk).
    pose proof Htest as [Hs Hv]%andb_prop.
    rewrite Hsub, !is_dict_at_alloc, Htest in Hin by (by apply is_dict_at_lt).
    destruct Hin as (merged & Hget & Hfresh). rewrite length_app in Hfresh.
    cbn in Hfresh. exists merged. split; [done|].
    split; [apply lookup_ge_None_2|]; lia.
Qed.

Lemma deep_merge_shares_values_witness :
  let h := [OScalar (SInt 1); ODict [("x", 0)]; ODict [("a", 1); ("n", 0)];
            OScalar (SInt 2); ODict [("y", 3)]; ODict [("a", 4); ("b", 3)]] in
  ∃ h' result entries,
    deep_merge_heap 2 h 2 5 = Some (h', result)
    ∧ h' !! result = Some (ODict entries)
    ∧ dict_get "n" entries = Some 0
    ∧ dict_get "b" entries = Some 3
    ∧ ∃ merged, dict_get "a" entries = Some merged ∧ h !! merged = None.
Proof.
  intros h.
  destruct (deep_merge_heap 2 h 2 5) as [[h' result]|] eqn:Hrun;
    [|vm_compute in Hrun; discriminate].
  destruct (deep_merge_shares_values 2 h 2 5 h' result
              [("a", 1); ("n", 0)] [("a", 4); ("b", 3)] Hrun eq_refl eq_refl)
    as (entries & Hres & Hbase & Hnew & _ & Hboth).
  { apply (proj1 (bool_decide_eq_true _)). reflexivity. }
  exists h', result, entries. split; [done|]. split; [done|].
  split; [exact (Hbase "n" eq_refl)|]. split; [exact (Hnew "b" 3 eq_refl eq_refl)|].
  destruct (Hboth "a" 4 1 eq_refl eq_refl eq_refl) as (merged & Hget & Hfresh & _).
  by exists merged.
Defined.

(** ** Distinct keys are kept *)

Lemma wf_dict_iff d :
  wf_dict d = true
  ↔ NoDup (dict_keys d) ∧ ∀ k v, (k, v) ∈ d → wf_value v = true.
Proof.
  unfold wf_dict, dict_keys. cbn [wf_value].
  rewrite andb_true_iff, bool_decide_eq_true, forallb_forall.
  split; intros [Hnd Hall]; (split; [done|]).
  - intros k v Hin. apply (Hall (k, v)). by apply list_elem_of_In.
  - intros [k v] Hin. apply (Hall k v). by apply list_elem_of_In.
Qed.

Lemma dict_set_elem_of {V} key (x : V) d kv :
  kv ∈ dict_set key x d → kv = (key, x) ∨ kv ∈ d.
Proof.
  induction d as [|[k w] d IH]; cbn.
  - intros ->%list_elem_of_singleton. by left.
  - destruct (String.eqb_spec k key) as [->|Hne].
    + intros [->|Hin]%elem_of_cons; [by left|].
      right. apply elem_of_cons. by right.
    + intros [->|Hin]%elem_of_cons; [right; apply elem_of_cons; by left|].
      destruct (IH Hin) as [->|Hd]; [by left|].
      right. apply elem_of_cons. by right.
Qed.

Lemma wf_dict_set key x d :
  wf_dict d = true → wf_value x = true → wf_dict (dict_set key x d) = true.
Proof.
  rewrite !wf_dict_iff. intros [Hnd Hall] Hx. split; [by apply dict_set_NoDup|].
  intros k v [[= -> ->]|Hin]%dict_set_elem_of; [done|by eapply Hall].
Qed.

Lemma wf_entries_of v : wf_value v = true → wf_dict (entries_of v) = true.
Proof. by destruct v. Qed.

(** Merging mappings with distinct keys gives a mapping with distinct
    keys, at every level. *)
Lemma deep_merge_wf (A B : dict) :
  wf_dict A = true → wf_dict B = true → wf_dict (_deep_merge A B) = true.
Proof.
  enough (∀ v B, v = VDict B →
            ∀ A, wf_dict A = true → wf_dict B = true →
                 wf_dict (_deep_merge A B) = true) as Hgen
    by (intros; by eapply Hgen).
  clear A B. induction v as [s|vs _|entries IH] using value_ind;
    intros B HB; [done|done|].
  injection HB as <-. intros A HA HB. rewrite _deep_merge_unfold.
  apply wf_dict_iff in HB as [_ HB].
  revert A HA. induction entries as [|[k v] entries IHe]; intros A HA; [done|].
  apply Forall_cons in IH as [IHv IH]. cbn [snd] in IHv. cbn [foldl].
  apply IHe; [done|intros k' v' Hin; apply (HB k' v'); apply elem_of_cons; by right|].
  assert (wf_value v = true) as Hv by (apply (HB k v); apply elem_of_cons; by left).
  rewrite merge_step_set. apply wf_dict_set; [done|].
  unfold merged_value. destruct (dict_get k A) as [[s|l|a]|] eqn:Hget; try done.
  destruct v as [s|l|b]; try done.
  change (wf_dict (_deep_merge a b) = true). apply (IHv b eq_refl); [|done].
  apply wf_dict_iff in HA as [_ HA].
  apply (HA k (VDict a)). by apply dict_get_Some_elem_of.
Qed.

(** X17: [_deep_merge] keeps mappings well formed: when the keys of
    the base and of the override are pairwise distinct at every level,
    as those of Python mappings are, so are the keys of the result. *)
Theorem deep_merge_well_formed (A B : dict) :
  wf_dict A = true → wf_dict B = true → wf_dict (_deep_merge A B) = true.
Proof. apply deep_merge_wf. Qed.

Lemma deep_merge_well_formed_witness :
  wf_dict (_deep_merge
             [("a", VDict [("x", VScalar (SInt 1))]); ("b", VScalar (SInt 2))]
             [("a", VDict [("y", VScalar (SInt 3))]); ("c", VList [])])
  = true.
Proof. apply deep_merge_well_formed; reflexivity. Defined.

Lemma foldl_merge_config_wf (l : list (string * value)) :
  Forall (λ fc, wf_value fc.2 = true) l →
  ∀ acc, wf_dict acc = true → wf_dict (foldl merge_config acc l) = true.
Proof.
  induction 1 as [|fc l Hfc _ IH]; intros acc Hacc; [done|].
  cbn [foldl]. apply IH. unfold merge_config.
  apply deep_merge_wf; [done|by apply wf_entries_of].
Qed.

(** X18: the merged configuration of well-formed files is well formed:
    whatever the number of files and their depths, no key occurs twice
    in the result or in any mapping nested in it. *)
Theorem merged_config_well_formed (configs : dict) :
  Forall (λ fc, isinstance_dict fc.2 = true ∧ wf_value fc.2 = true) configs →
  ∃ merged_config errs,
    merge_configs_by_depth configs = inr (merged_config, errs)
    ∧ wf_dict merged_config = true.
Proof.
  intros Hconfigs. eexists _, _. split.
  { apply merge_configs_by_depth_run.
    eapply Forall_impl; [exact Hconfigs|]. by intros fc [? _]. }
  apply foldl_merge_config_wf; [|done]. rewrite merge_order_perm.
  eapply Forall_impl; [exact Hconfigs|]. by intros fc [_ ?].
Qed.

Lemma merged_config_well_formed_witness :
  ∃ merged_config errs,
    merge_configs_by_depth
      [("/aaa/a/config.yaml", VDict [("db", VDict [("port", VScalar (SInt 2))])]);
       ("/aaa/config.yaml", VDict [("db", VDict [("host", VScalar (SStr "h"))])])]
    = inr (merged_config, errs)
    ∧ wf_dict merged_config = true.
Proof.
  apply merged_config_well_formed. repeat constructor.
Defined.
